(** * Snake engines: a shallow embedding of the two game variants

    [AiSnake] embeds [src/ai_snake_game.py] (class [SnakeGame], the
    continuous trail model driven by a tracked finger position) and
    [ClassicSnake] embeds [src/classic_snake_game.py] (class
    [ClassicSnakeGame], the discrete segment chain driven by direction keys).

    Python floats are idealised as real numbers, Python ints are [Z].
    Rendering only reads the state and is left out.  The pseudo-random
    generator is an oracle: every operation that calls [random.randint]
    takes the raw draws as an argument. *)

From Stdlib Require Import String ZArith QArith Reals Lra Lia List Bool.
From Stdlib Require Lqa.
Import ListNotations.

(** [random.randint(lo, hi)]: an integer of the closed interval, chosen by
    the raw draw. *)
Definition randint (lo hi raw : Z) : Z := (lo + raw mod (hi - lo + 1))%Z.

(** The two raw draws consumed by one food placement. *)
Definition entropy := (Z * Z)%type.

(** ** The continuous trail model *)
Module AiSnake.

Local Open Scope R_scope.

Definition point := (R * R)%type.

(** [math.hypot] *)
Definition hypot (x y : R) : R := sqrt (x * x + y * y).

(** Python's [a < b] on numbers, as a boolean. *)
Definition Rltb (a b : R) : bool := if Rlt_dec a b then true else false.

Record SnakeGame := mkSnakeGame {
  points : list point;          (* all points of the body, oldest first *)
  lengths : list R;             (* length between each point *)
  current_length : R;
  allowed_length : Z;
  previous_head : point;
  food_width : Z;
  food_height : Z;
  food_position : Z * Z;
  score : Z;
  high_score : Z;
  game_over : bool
}.

Definition set_body (g : SnakeGame) (ps : list point) (ls : list R) (cur : R)
  : SnakeGame :=
  mkSnakeGame ps ls cur (allowed_length g) (previous_head g) (food_width g)
    (food_height g) (food_position g) (score g) (high_score g) (game_over g).

Definition set_previous_head (g : SnakeGame) (p : point) : SnakeGame :=
  mkSnakeGame (points g) (lengths g) (current_length g) (allowed_length g) p
    (food_width g) (food_height g) (food_position g) (score g) (high_score g)
    (game_over g).

Definition set_food_position (g : SnakeGame) (f : Z * Z) : SnakeGame :=
  mkSnakeGame (points g) (lengths g) (current_length g) (allowed_length g)
    (previous_head g) (food_width g) (food_height g) f (score g)
    (high_score g) (game_over g).

Definition set_game_over (g : SnakeGame) (b : bool) : SnakeGame :=
  mkSnakeGame (points g) (lengths g) (current_length g) (allowed_length g)
    (previous_head g) (food_width g) (food_height g) (food_position g)
    (score g) (high_score g) b.

(** [randomize_food_location] *)
Definition randomize_food_location (g : SnakeGame) (rnd : entropy) : SnakeGame :=
  set_food_position g (randint 100 700 (fst rnd), randint 100 500 (snd rnd)).

(** [__init__]: the food image, loaded or built in, is always 50 by 50. *)
Definition init (rnd : entropy) : SnakeGame :=
  randomize_food_location
    (mkSnakeGame [] [] 0 100 (0, 0) 50 50 (0, 0)%Z 0 0 false) rnd.

(** [reset_game] *)
Definition reset_game (g : SnakeGame) (rnd : entropy) : SnakeGame :=
  randomize_food_location
    (mkSnakeGame [] [] 0 100 (0, 0) (food_width g) (food_height g)
       (food_position g) 0
       (if (high_score g <? score g)%Z then score g else high_score g)
       false)
    rnd.

(** The [for] loop of [check_collision] over the body points it is given. *)
Fixpoint scan_body (px py : R) (body : list point) : bool :=
  match body with
  | [] => false
  | (bx, by_) :: rest =>
      if Rltb (hypot (px - bx) (py - by_)) 15 then true
      else scan_body px py rest
  end.

(** [check_collision]: [self.points[:-50]] is the list without its last 50
    elements. *)
Definition check_collision (g : SnakeGame) (p : point) : bool :=
  let '(px, py) := p in
  if (50 <? length (points g))%nat
  then scan_body px py (firstn (length (points g) - 50) (points g))
  else false.

(** The [while] loop of [_trim_snake_length].  Each round pops one element of
    [lengths], so the loop is a recursion on that list; [points.pop(0)] on an
    empty list raises, which is [None]. *)
Fixpoint trim (cur : R) (allowed : Z) (ls : list R) (ps : list point)
  : option (list point * list R * R) :=
  if Rltb (IZR allowed) cur then
    match ls with
    | [] => Some (ps, ls, cur)
    | l0 :: ls' =>
        match ps with
        | [] => None
        | _ :: ps' => trim (cur - l0) allowed ls' ps'
        end
    end
  else Some (ps, ls, cur).

Definition _trim_snake_length (g : SnakeGame) : option SnakeGame :=
  match trim (current_length g) (allowed_length g) (lengths g) (points g) with
  | Some (ps, ls, cur) => Some (set_body g ps ls cur)
  | None => None
  end.

(** The test of [_check_food_collision]. *)
Definition food_hit (g : SnakeGame) (cx cy : R) : bool :=
  let '(rx, ry) := food_position g in
  let half_width := (food_width g / 2)%Z in
  let half_height := (food_height g / 2)%Z in
  Rltb (IZR (rx - half_width)) cx && Rltb cx (IZR (rx + half_width))
  && (Rltb (IZR (ry - half_height)) cy && Rltb cy (IZR (ry + half_height))).

(** [_check_food_collision] *)
Definition _check_food_collision (g : SnakeGame) (cx cy : R) (rnd : entropy)
  : SnakeGame :=
  if food_hit g cx cy then
    let g1 := randomize_food_location g rnd in
    mkSnakeGame (points g1) (lengths g1) (current_length g1)
      (allowed_length g1 + 30)%Z (previous_head g1) (food_width g1)
      (food_height g1) (food_position g1) (score g1 + 1)%Z (high_score g1)
      (game_over g1)
  else g.

(** The first half of [update]: the new point, its distance from the
    previous head, and the new previous head. *)
Definition append_head (g : SnakeGame) (current_head : point) : SnakeGame :=
  let '(px, py) := previous_head g in
  let '(cx, cy) := current_head in
  let distance := hypot (cx - px) (cy - py) in
  set_previous_head
    (set_body g (points g ++ [(cx, cy)]) (lengths g ++ [distance])
       (current_length g + distance))
    (cx, cy).

(** [update], without the rendering. *)
Definition update (g : SnakeGame) (current_head : point) (rnd : entropy)
  : option SnakeGame :=
  if game_over g then Some g
  else
    match _trim_snake_length (append_head g current_head) with
    | None => None
    | Some g2 =>
        let g3 := _check_food_collision g2 (fst current_head)
                    (snd current_head) rnd in
        if check_collision g3 current_head
        then Some (set_game_over g3 true)
        else Some g3
    end.

(** What the main loop does to the game in one round: a frame with a hand
    calls [update], the key R calls [reset_game]. *)
Inductive event :=
| Frame (head : point) (rnd : entropy)
| Restart (rnd : entropy).

Definition step (g : SnakeGame) (e : event) : option SnakeGame :=
  match e with
  | Frame head rnd => update g head rnd
  | Restart rnd => Some (reset_game g rnd)
  end.

Fixpoint run (g : SnakeGame) (es : list event) : option SnakeGame :=
  match es with
  | [] => Some g
  | e :: es' =>
      match step g e with
      | Some g' => run g' es'
      | None => None
      end
  end.

(** The states the program can be in: those a sequence of events leads to
    from construction. *)
Definition reachable (g : SnakeGame) : Prop :=
  exists rnd es, run (init rnd) es = Some g.

Definition sumR (l : list R) : R := fold_right Rplus 0 l.

(** The invariant of the session: the tracked length is the sum of the
    lengths, both lists have the same length, the allowance is fixed by the
    score, and the body fits the allowance. *)
Record Inv (g : SnakeGame) : Prop := mkInv {
  inv_sum : current_length g = sumR (lengths g);
  inv_len : length (points g) = length (lengths g);
  inv_allowed : allowed_length g = (100 + 30 * score g)%Z;
  inv_score : (0 <= score g)%Z;
  inv_fit : current_length g <= IZR (allowed_length g)
}.

End AiSnake.

(** ** The discrete segment-chain model *)
Module ClassicSnake.

Local Open Scope Z_scope.

(** Turtle coordinates: every position the game produces is a whole number. *)
Definition pos := (Z * Z)%type.

(** The head turtle with its [direction] attribute. *)
Record Head := mkHead {
  xcor : Z;
  ycor : Z;
  direction : string
}.

Record ClassicSnakeGame := mkGame {
  delay : Q;
  score : Z;
  high_score : Z;
  is_paused : bool;
  segments : list pos;
  head : Head;
  food : pos
}.

Definition head_pos (s : ClassicSnakeGame) : pos :=
  (xcor (head s), ycor (head s)).

Definition set_head (s : ClassicSnakeGame) (h : Head) : ClassicSnakeGame :=
  mkGame (delay s) (score s) (high_score s) (is_paused s) (segments s) h
    (food s).

Definition set_segments (s : ClassicSnakeGame) (l : list pos)
  : ClassicSnakeGame :=
  mkGame (delay s) (score s) (high_score s) (is_paused s) l (head s) (food s).

Definition set_direction (s : ClassicSnakeGame) (d : string)
  : ClassicSnakeGame :=
  set_head s (mkHead (xcor (head s)) (ycor (head s)) d).

(** [__init__]: head at the origin and stopped, food at (0, 100). *)
Definition init : ClassicSnakeGame :=
  mkGame 0.1 0 0 false [] (mkHead 0 0 "stop") (0, 100).

(** [go_up], [go_down], [go_left], [go_right] *)
Definition go_up (s : ClassicSnakeGame) : ClassicSnakeGame :=
  if negb (String.eqb (direction (head s)) "down") then set_direction s "up" else s.

Definition go_down (s : ClassicSnakeGame) : ClassicSnakeGame :=
  if negb (String.eqb (direction (head s)) "up") then set_direction s "down" else s.

Definition go_left (s : ClassicSnakeGame) : ClassicSnakeGame :=
  if negb (String.eqb (direction (head s)) "right") then set_direction s "left" else s.

Definition go_right (s : ClassicSnakeGame) : ClassicSnakeGame :=
  if negb (String.eqb (direction (head s)) "left") then set_direction s "right" else s.

(** [toggle_pause] *)
Definition toggle_pause (s : ClassicSnakeGame) : ClassicSnakeGame :=
  mkGame (delay s) (score s) (high_score s) (negb (is_paused s)) (segments s)
    (head s) (food s).

(** [move]: one step of 20 in the current direction. *)
Definition move (s : ClassicSnakeGame) : ClassicSnakeGame :=
  let step := 20 in
  let h := head s in
  if String.eqb (direction h) "up" then set_head s (mkHead (xcor h) (ycor h + step) (direction h))
  else if String.eqb (direction h) "down" then set_head s (mkHead (xcor h) (ycor h - step) (direction h))
  else if String.eqb (direction h) "left" then set_head s (mkHead (xcor h - step) (ycor h) (direction h))
  else if String.eqb (direction h) "right" then set_head s (mkHead (xcor h + step) (ycor h) (direction h))
  else s.

(** [spawn_food] *)
Definition spawn_food (s : ClassicSnakeGame) (rnd : entropy) : ClassicSnakeGame :=
  mkGame (delay s) (score s) (high_score s) (is_paused s) (segments s)
    (head s) (randint (-270) 270 (fst rnd), randint (-270) 270 (snd rnd)).

(** [add_segment]: a new turtle starts at the origin. *)
Definition add_segment (s : ClassicSnakeGame) : ClassicSnakeGame :=
  set_segments s (segments s ++ [(0, 0)]).

(** [l[i] = v] for an index inside the list. *)
Fixpoint list_set (l : list pos) (i : nat) (v : pos) : list pos :=
  match l, i with
  | [], _ => []
  | _ :: t, O => v :: t
  | x :: t, S j => x :: list_set t j v
  end.

(** The first loop of [move_segments], entered at index [i] and counting
    down to 1. *)
Fixpoint follow (l : list pos) (i : nat) : list pos :=
  match i with
  | O => l
  | S j => follow (list_set l (S j) (nth j l (0, 0))) j
  end.

(** [move_segments] *)
Definition move_segments (s : ClassicSnakeGame) : ClassicSnakeGame :=
  let l := follow (segments s) (length (segments s) - 1) in
  match l with
  | [] => set_segments s l
  | _ :: _ => set_segments s (list_set l 0 (head_pos s))
  end.

(** [a.distance(b) < t] for turtles at whole-number positions and a
    non-negative whole [t]: the comparison of the squares. *)
Definition distance_below (a b : pos) (t : Z) : bool :=
  let dx := fst a - fst b in
  let dy := snd a - snd b in
  dx * dx + dy * dy <? t * t.

(** [check_wall_collision] *)
Definition check_wall_collision (s : ClassicSnakeGame) : bool :=
  (290 <? Z.abs (xcor (head s))) || (290 <? Z.abs (ycor (head s))).

(** [check_self_collision] *)
Definition check_self_collision (s : ClassicSnakeGame) : bool :=
  existsb (fun segment => distance_below segment (head_pos s) 20) (segments s).

(** [reset_game]: the segments are parked at (1000, 1000) and the list is
    cleared; the food is not touched. *)
Definition reset_game (s : ClassicSnakeGame) : ClassicSnakeGame :=
  mkGame 0.1 0
    (if high_score s <? score s then score s else high_score s)
    (is_paused s) [] (mkHead 0 0 "stop") (food s).

(** The food block of the main loop. *)
Definition eats (s : ClassicSnakeGame) : bool :=
  distance_below (head_pos s) (food s) 20.

Definition eat_food (s : ClassicSnakeGame) (rnd : entropy) : ClassicSnakeGame :=
  let s1 := add_segment (spawn_food s rnd) in
  let score' := score s1 + 10 in
  let delay' := if Qlt_le_dec 0.05 (delay s1) then (delay s1 - 0.002)%Q
                else delay s1 in
  mkGame delay' score'
    (if high_score s1 <? score' then score' else high_score s1)
    (is_paused s1) (segments s1) (head s1) (food s1).

Definition food_phase (s : ClassicSnakeGame) (rnd : entropy) : ClassicSnakeGame :=
  if eats s then eat_food s rnd else s.

Definition wall_phase (s : ClassicSnakeGame) : ClassicSnakeGame :=
  if check_wall_collision s then reset_game s else s.

Definition self_phase (s : ClassicSnakeGame) : ClassicSnakeGame :=
  if check_self_collision s then reset_game s else s.

(** One round of the [while] loop of [run]. *)
Definition tick (s : ClassicSnakeGame) (rnd : entropy) : ClassicSnakeGame :=
  if is_paused s then s
  else self_phase (move (move_segments (food_phase (wall_phase s) rnd))).

(** The four direction commands bound to the keys by [_setup_controls]. *)
Inductive command := Up | Down | Left | Right.

(** The direction a command asks for, and the heading it may not reverse. *)
Definition commanded (c : command) : string :=
  match c with
  | Up => "up"
  | Down => "down"
  | Left => "left"
  | Right => "right"
  end.

Definition reverse_of (c : command) : string :=
  match c with
  | Up => "down"
  | Down => "up"
  | Left => "right"
  | Right => "left"
  end.

Definition press (c : command) (s : ClassicSnakeGame) : ClassicSnakeGame :=
  match c with
  | Up => go_up s
  | Down => go_down s
  | Left => go_left s
  | Right => go_right s
  end.

(** What can happen to the game: a key press or a round of the loop.  No
    key asks for a reset. *)
Inductive event :=
| Press (c : command)
| Pause
| Tick (rnd : entropy).

Definition step (s : ClassicSnakeGame) (e : event) : ClassicSnakeGame :=
  match e with
  | Press c => press c s
  | Pause => toggle_pause s
  | Tick rnd => tick s rnd
  end.

Definition run (s : ClassicSnakeGame) (es : list event) : ClassicSnakeGame :=
  fold_left step es s.

End ClassicSnake.

(** ** States and inputs used in the examples *)
Module Scenarios.

Import AiSnake.
Local Open Scope R_scope.

(** The continuous game after the finger has rested at (72, 96) for [k]
    frames beyond the first: [k] points, all lengths 0, food at (100, 100). *)
Definition coil (k : nat) : SnakeGame :=
  mkSnakeGame (repeat (72, 96) k) (repeat 0 k) 0 100 (72, 96) 50 50
    (100, 100)%Z 0 0 false.

(** Raw draws that place the discrete food at (50, 60). *)
Definition draw_50_60 : entropy := (320, 330)%Z.

(** Raw draws that place the discrete food at (5, 5). *)
Definition draw_5_5 : entropy := (275, 275)%Z.

(** The discrete game driven upwards from the start with the given draws:
    it eats the food at (0, 100) in the sixth round, is beyond the wall
    after 15 rounds, and is reset by the sixteenth. *)
Definition climb_with (rnd : entropy) (n : nat) : list ClassicSnake.event :=
  ClassicSnake.Press ClassicSnake.Up :: repeat (ClassicSnake.Tick rnd) n.

Definition climb (n : nat) : list ClassicSnake.event :=
  climb_with draw_50_60 n.

End Scenarios.

(** ** Notions used to describe the body and the grid *)
Module Shape.

Local Open Scope R_scope.

(** The distance [update] computes between the previous head and the new
    one. *)
Definition travel (p q : AiSnake.point) : R :=
  AiSnake.hypot (fst q - fst p) (snd q - snd p).

(** [ls] lists, point by point, the distance of each point of [ps] from the
    point before it, the first one from [prev]. *)
Fixpoint chained (prev : AiSnake.point) (ps : list AiSnake.point)
         (ls : list R) : Prop :=
  match ps, ls with
  | [], [] => True
  | p :: ps', l :: ls' => l = travel prev p /\ chained p ps' ls'
  | _, _ => False
  end.

(** The body of [g] is chained from some point [p0], the point dropped last
    or the first previous head, and ends at the previous head. *)
Definition Chain (g : AiSnake.SnakeGame) : Prop :=
  exists p0, chained p0 (AiSnake.points g) (AiSnake.lengths g)
             /\ last (AiSnake.points g) p0 = AiSnake.previous_head g.

(** The food image is 50 by 50 and the food lies within its bounds. *)
Definition FoodOK (g : AiSnake.SnakeGame) : Prop :=
  AiSnake.food_width g = 50%Z
  /\ AiSnake.food_height g = 50%Z
  /\ (100 <= fst (AiSnake.food_position g) <= 700)%Z
  /\ (100 <= snd (AiSnake.food_position g) <= 500)%Z.

(** A sequence of frames with a hand, as events of the main loop. *)
Definition frames (fs : list (AiSnake.point * entropy)) : list AiSnake.event :=
  map (fun f => AiSnake.Frame (fst f) (snd f)) fs.

(** A turtle position on the grid of step 20. *)
Definition on_grid (p : ClassicSnake.pos) : Prop :=
  (20 | fst p)%Z /\ (20 | snd p)%Z.

(** What every phase of a discrete round keeps: the score counts the
    segments, the high score is at least the score, head and segments are on
    the grid, the food is within its bounds, and the delay has lost 0.002
    for each segment up to the twenty-fifth. *)
Record Core (s : ClassicSnake.ClassicSnakeGame) : Prop := mkCore {
  core_score :
    ClassicSnake.score s
    = (10 * Z.of_nat (length (ClassicSnake.segments s)))%Z;
  core_high : (ClassicSnake.score s <= ClassicSnake.high_score s)%Z;
  core_head : on_grid (ClassicSnake.head_pos s);
  core_segments : Forall on_grid (ClassicSnake.segments s);
  core_food :
    (-270 <= fst (ClassicSnake.food s) <= 270)%Z
    /\ (-270 <= snd (ClassicSnake.food s) <= 270)%Z;
  core_delay :
    (ClassicSnake.delay s
     == 0.1 - 0.002
              * inject_Z (Z.min 25 (Z.of_nat (length (ClassicSnake.segments s)))))%Q
}.

(** What holds between rounds besides: the head is at most one step beyond
    the wall and on no segment. *)
Record Settled (s : ClassicSnake.ClassicSnakeGame) : Prop := mkSettled {
  settled_core : Core s;
  settled_x : (Z.abs (ClassicSnake.xcor (ClassicSnake.head s)) <= 300)%Z;
  settled_y : (Z.abs (ClassicSnake.ycor (ClassicSnake.head s)) <= 300)%Z;
  settled_clear : ClassicSnake.check_self_collision s = false
}.

(** The state of a discrete round just before its self-collision check. *)
Definition before_self_check (s : ClassicSnake.ClassicSnakeGame)
           (rnd : entropy) : ClassicSnake.ClassicSnakeGame :=
  ClassicSnake.move
    (ClassicSnake.move_segments
       (ClassicSnake.food_phase (ClassicSnake.wall_phase s) rnd)).

(** Two commands along different axes. *)
Definition perpendicular (p c : ClassicSnake.command) : bool :=
  match p, c with
  | ClassicSnake.Up, ClassicSnake.Left | ClassicSnake.Up, ClassicSnake.Right
  | ClassicSnake.Down, ClassicSnake.Left | ClassicSnake.Down, ClassicSnake.Right
  | ClassicSnake.Left, ClassicSnake.Up | ClassicSnake.Left, ClassicSnake.Down
  | ClassicSnake.Right, ClassicSnake.Up | ClassicSnake.Right, ClassicSnake.Down
      => true
  | _, _ => false
  end.

(** The rounds of the discrete loop as events. *)
Definition rounds (rs : list entropy) : list ClassicSnake.event :=
  map ClassicSnake.Tick rs.

End Shape.

(** * The random draws *)

Lemma randint_bounds (lo hi raw : Z) :
  (lo <= hi)%Z -> (lo <= randint lo hi raw <= hi)%Z.
Proof.
  intros H. unfold randint.
  pose proof (Z.mod_pos_bound raw (hi - lo + 1)). lia.
Qed.

(** Every value of the interval is drawn by some raw draw. *)
Lemma randint_onto (lo hi v : Z) :
  (lo <= v <= hi)%Z -> randint lo hi (v - lo) = v.
Proof.
  intros H. unfold randint. rewrite Z.mod_small; lia.
Qed.

(** * Facts about the continuous trail model *)
Module AiSnakeFacts.

Import AiSnake Scenarios.
Local Open Scope R_scope.

(** Reduce the record projections and setters only, leaving the arithmetic
    as it is written. *)
Ltac fields :=
  cbn [points lengths current_length allowed_length previous_head food_width
       food_height food_position score high_score game_over set_body
       set_previous_head set_food_position set_game_over
       randomize_food_location init reset_game] in *.

Lemma Rltb_true (a b : R) : Rltb a b = true <-> a < b.
Proof.
  unfold Rltb. destruct (Rlt_dec a b); split; intros; auto; discriminate.
Qed.

Lemma Rltb_false (a b : R) : Rltb a b = false <-> b <= a.
Proof.
  unfold Rltb. destruct (Rlt_dec a b); split; intros; try discriminate; auto; lra.
Qed.

Lemma sumR_app (l1 l2 : list R) : sumR (l1 ++ l2) = sumR l1 + sumR l2.
Proof.
  induction l1 as [|x l1 IH]; simpl.
  - lra.
  - unfold sumR in *. simpl. rewrite IH. lra.
Qed.

Lemma sumR_cons (x : R) (l : list R) : sumR (x :: l) = x + sumR l.
Proof. reflexivity. Qed.

Lemma sumR_single (x : R) : sumR [x] = x.
Proof. unfold sumR. simpl. lra. Qed.

(** ** The trimming loop *)

(** On a body whose two lists have the same length and whose tracked length
    is the sum of [lengths], the loop ends without raising, keeps both
    facts, and stops either under the allowance or on an empty body. *)
Lemma trim_spec (allowed : Z) (ls : list R) :
  forall (ps : list point) (cur : R),
    length ps = length ls ->
    cur = sumR ls ->
    exists ps' ls' cur',
      trim cur allowed ls ps = Some (ps', ls', cur')
      /\ length ps' = length ls'
      /\ cur' = sumR ls'
      /\ (cur' <= IZR allowed \/ ls' = []).
Proof.
  induction ls as [|l0 ls IH]; intros ps cur Hlen Hsum.
  - exists ps, [], cur. simpl.
    destruct (Rltb (IZR allowed) cur) eqn:E; repeat split; auto.
  - simpl. destruct (Rltb (IZR allowed) cur) eqn:E.
    + destruct ps as [|p ps]; [discriminate Hlen|].
      apply IH.
      * simpl in Hlen. lia.
      * rewrite Hsum, sumR_cons. lra.
    + exists ps, (l0 :: ls), cur. repeat split; auto.
      apply Rltb_false in E. auto.
Qed.

(** ** The invariant is kept *)

Lemma Inv_init (rnd : entropy) : Inv (init rnd).
Proof. split; fields; try reflexivity; try lia; lra. Qed.

Lemma Inv_reset_game (g : SnakeGame) (rnd : entropy) : Inv (reset_game g rnd).
Proof. split; fields; try reflexivity; try lia; lra. Qed.

Lemma Inv_append_head (g : SnakeGame) (h : point) :
  Inv g ->
  current_length (append_head g h) = sumR (lengths (append_head g h))
  /\ length (points (append_head g h)) = length (lengths (append_head g h)).
Proof.
  intros [Hs Hl _ _ _]. unfold append_head.
  destruct (previous_head g) as [px py], h as [cx cy]. simpl.
  rewrite sumR_app, sumR_single, Hs, !length_app, Hl.
  split; reflexivity.
Qed.

Lemma append_head_fields (g : SnakeGame) (h : point) :
  allowed_length (append_head g h) = allowed_length g
  /\ score (append_head g h) = score g
  /\ high_score (append_head g h) = high_score g
  /\ food_position (append_head g h) = food_position g
  /\ food_width (append_head g h) = food_width g
  /\ food_height (append_head g h) = food_height g
  /\ game_over (append_head g h) = game_over g.
Proof.
  unfold append_head. destruct (previous_head g), h. simpl. tauto.
Qed.

(** What trimming does to a state that satisfies the invariant. *)
Lemma trim_snake_length_spec (g : SnakeGame) :
  current_length g = sumR (lengths g) ->
  length (points g) = length (lengths g) ->
  exists ps ls cur,
    _trim_snake_length g = Some (set_body g ps ls cur)
    /\ length ps = length ls
    /\ cur = sumR ls
    /\ (cur <= IZR (allowed_length g) \/ ls = []).
Proof.
  intros Hs Hl.
  destruct (trim_spec (allowed_length g) (lengths g) (points g)
              (current_length g) Hl Hs) as (ps & ls & cur & Ht & H).
  exists ps, ls, cur. unfold _trim_snake_length. rewrite Ht. auto.
Qed.

Lemma check_food_collision_body (g : SnakeGame) (cx cy : R) (rnd : entropy) :
  points (_check_food_collision g cx cy rnd) = points g
  /\ lengths (_check_food_collision g cx cy rnd) = lengths g
  /\ current_length (_check_food_collision g cx cy rnd) = current_length g
  /\ game_over (_check_food_collision g cx cy rnd) = game_over g
  /\ high_score (_check_food_collision g cx cy rnd) = high_score g.
Proof.
  unfold _check_food_collision. destruct (food_hit g cx cy); simpl; tauto.
Qed.

Lemma Inv_check_food_collision (g : SnakeGame) (cx cy : R) (rnd : entropy) :
  Inv g -> Inv (_check_food_collision g cx cy rnd).
Proof.
  intros [Hs Hl Ha Hsc Hf]. unfold _check_food_collision.
  destruct (food_hit g cx cy); split; fields; try assumption; try lia.
  rewrite plus_IZR. lra.
Qed.

Lemma Inv_set_game_over (g : SnakeGame) (b : bool) :
  Inv g -> Inv (set_game_over g b).
Proof. intros [Hs Hl Ha Hsc Hf]. split; fields; assumption. Qed.

(** [update] never raises on a state that satisfies the invariant, and the
    invariant holds again afterwards. *)
Lemma Inv_update (g : SnakeGame) (h : point) (rnd : entropy) :
  Inv g -> exists g', update g h rnd = Some g' /\ Inv g'.
Proof.
  intros HI. unfold update. destruct (game_over g).
  - exists g. auto.
  - destruct (Inv_append_head g h HI) as [Hs Hl].
    destruct (append_head_fields g h) as (Ha & Hsc & _).
    destruct (trim_snake_length_spec _ Hs Hl)
      as (ps & ls & cur & Ht & Hlen & Hsum & Hstop).
    rewrite Ht.
    assert (HI2 : Inv (set_body (append_head g h) ps ls cur)).
    { destruct HI as [_ _ Hal Hscore _].
      split; fields; try assumption; rewrite ?Ha, ?Hsc; try assumption.
      destruct Hstop as [Hle | Hnil]; [rewrite <- Ha; exact Hle|].
      rewrite Hsum, Hnil. unfold sumR. simpl. apply IZR_le. lia. }
    set (g3 := _check_food_collision _ _ _ _).
    assert (HI3 : Inv g3) by (apply Inv_check_food_collision; exact HI2).
    destruct (check_collision g3 h).
    + eexists. split; [reflexivity|]. apply Inv_set_game_over. exact HI3.
    + eexists. split; [reflexivity|]. exact HI3.
Qed.

Lemma Inv_step (g : SnakeGame) (e : event) :
  Inv g -> exists g', step g e = Some g' /\ Inv g'.
Proof.
  intros HI. destruct e as [h rnd | rnd]; simpl.
  - apply Inv_update. exact HI.
  - eexists. split; [reflexivity|]. apply Inv_reset_game.
Qed.

Lemma Inv_run (es : list event) :
  forall g, Inv g -> exists g', run g es = Some g' /\ Inv g'.
Proof.
  induction es as [|e es IH]; intros g HI; simpl.
  - exists g. auto.
  - destruct (Inv_step g e HI) as (g1 & Hst & HI1). rewrite Hst.
    apply IH. exact HI1.
Qed.

(** ** Evaluating [update] *)

Lemma hypot_square (a b c : R) : 0 <= c -> a * a + b * b = c * c -> hypot a b = c.
Proof.
  intros Hc H. unfold hypot. rewrite H. apply sqrt_square. exact Hc.
Qed.

(** A playing tick, once the outcome of the trimming loop is known. *)
Lemma update_playing (g : SnakeGame) (h : point) (rnd : entropy)
      (ps : list point) (ls : list R) (cur : R) :
  game_over g = false ->
  trim (current_length (append_head g h)) (allowed_length g)
       (lengths (append_head g h)) (points (append_head g h))
    = Some (ps, ls, cur) ->
  update g h rnd =
  Some (let g3 := _check_food_collision (set_body (append_head g h) ps ls cur)
                    (fst h) (snd h) rnd in
        if check_collision g3 h then set_game_over g3 true else g3).
Proof.
  intros Hgo Ht. unfold update, _trim_snake_length. rewrite Hgo.
  destruct (append_head_fields g h) as (Ha & _). rewrite Ha, Ht.
  cbv zeta. destruct (check_collision _ h); reflexivity.
Qed.

Lemma food_hit_true (g : SnakeGame) (cx cy : R) :
  food_hit g cx cy = true <->
  IZR (fst (food_position g) - food_width g / 2) < cx
    < IZR (fst (food_position g) + food_width g / 2)
  /\ IZR (snd (food_position g) - food_height g / 2) < cy
    < IZR (snd (food_position g) + food_height g / 2).
Proof.
  unfold food_hit. destruct (food_position g) as [rx ry]. cbn [fst snd].
  rewrite !andb_true_iff, !Rltb_true. tauto.
Qed.

Lemma trim_stop (cur : R) (allowed : Z) (ls : list R) (ps : list point) :
  cur <= IZR allowed -> trim cur allowed ls ps = Some (ps, ls, cur).
Proof.
  intros H. apply Rltb_false in H. destruct ls; simpl; rewrite H; reflexivity.
Qed.

Lemma trim_pop (cur : R) (allowed : Z) (l0 : R) (ls : list R) (p : point)
      (ps : list point) :
  IZR allowed < cur ->
  trim cur allowed (l0 :: ls) (p :: ps) = trim (cur - l0) allowed ls ps.
Proof.
  intros H. apply Rltb_true in H. simpl. rewrite H. reflexivity.
Qed.

Lemma food_hit_false (g : SnakeGame) (cx cy : R) :
  cx <= IZR (fst (food_position g) - food_width g / 2)
  \/ IZR (fst (food_position g) + food_width g / 2) <= cx
  \/ cy <= IZR (snd (food_position g) - food_height g / 2)
  \/ IZR (snd (food_position g) + food_height g / 2) <= cy ->
  food_hit g cx cy = false.
Proof.
  intros H. destruct (food_hit g cx cy) eqn:E; [|reflexivity].
  apply food_hit_true in E. lra.
Qed.

Lemma reachable_Inv (g : SnakeGame) : reachable g -> Inv g.
Proof.
  intros (rnd & es & Hr).
  destruct (Inv_run es (init rnd) (Inv_init rnd)) as (g' & Hr' & HI).
  rewrite Hr in Hr'. injection Hr' as ->. exact HI.
Qed.

Lemma scan_body_true (px py : R) (body : list point) :
  scan_body px py body = true <->
  exists p, In p body /\ hypot (px - fst p) (py - snd p) < 15.
Proof.
  induction body as [|[bx by_] rest IH]; simpl.
  - split; [discriminate | intros (p & [] & _)].
  - destruct (Rltb (hypot (px - bx) (py - by_)) 15) eqn:E.
    + split; [intros _ | reflexivity].
      exists (bx, by_). split; [left; reflexivity | apply Rltb_true, E].
    + rewrite IH. apply Rltb_false in E. split.
      * intros (p & Hin & Hd). exists p. auto.
      * intros (p & [<- | Hin] & Hd); [simpl in Hd; lra | exists p; auto].
Qed.

Lemma In_firstn_nth_error {A : Type} (n : nat) (l : list A) (x : A) :
  In x (firstn n l) <-> exists i, (i < n)%nat /\ nth_error l i = Some x.
Proof.
  revert l. induction n as [|n IH]; intros l.
  - simpl. split; [tauto | intros (i & Hi & _); lia].
  - destruct l as [|a l]; simpl.
    + split; [tauto | intros ([|i] & _ & Hi); discriminate].
    + rewrite IH. split.
      * intros [<- | (i & Hi & Hn)].
        -- exists O. split; [lia | reflexivity].
        -- exists (S i). split; [lia | exact Hn].
      * intros ([|i] & Hi & Hn).
        -- left. injection Hn as ->. reflexivity.
        -- right. exists i. split; [lia | exact Hn].
Qed.

(** The first frame: the finger is 120 away from (0, 0), so the point is
    appended and trimmed away. *)
Lemma update_init_coil (rnd : entropy) :
  update (init (0, 0)%Z) (72, 96) rnd = Some (coil 0).
Proof.
  assert (Hd : hypot (72 - 0) (96 - 0) = 120) by (apply hypot_square; lra).
  erewrite update_playing; [ | reflexivity | ].
  2:{ unfold append_head. fields. rewrite Hd. cbn [app].
      rewrite trim_pop by lra. apply trim_stop. lra. }
  cbv zeta. unfold append_head. fields. unfold _check_food_collision.
  rewrite food_hit_false by (fields; left; cbn; lra).
  unfold check_collision. fields. cbn [length Nat.ltb Nat.leb].
  unfold coil, set_body, set_previous_head. fields. cbn [repeat].
  do 2 f_equal; try reflexivity. lra.
Qed.

(** A frame with the finger held still adds one point of length 0. *)
Lemma update_coil (k : nat) (rnd : entropy) :
  (k < 50)%nat -> update (coil k) (72, 96) rnd = Some (coil (S k)).
Proof.
  intros Hk.
  assert (Hd : hypot (72 - 72) (96 - 96) = 0) by (apply hypot_square; lra).
  erewrite update_playing; [ | reflexivity | ].
  2:{ unfold append_head, coil. fields. rewrite Hd. apply trim_stop. lra. }
  cbv zeta. unfold append_head, coil. fields. unfold _check_food_collision.
  rewrite food_hit_false by (fields; left; cbn; lra).
  unfold check_collision. fields.
  rewrite length_app, repeat_length. cbn [length].
  replace (50 <? k + 1)%nat with false by (symmetry; apply Nat.ltb_ge; lia).
  unfold set_body, set_previous_head. fields.
  rewrite <- !repeat_cons. cbn [repeat].
  do 2 f_equal; try reflexivity. lra.
Qed.

Lemma run_coil (rnd : entropy) (n : nat) :
  forall k, (k + n <= 50)%nat ->
            run (coil k) (repeat (Frame (72, 96) rnd) n) = Some (coil (k + n)).
Proof.
  induction n as [|n IH]; intros k Hk.
  - rewrite Nat.add_0_r. reflexivity.
  - cbn [repeat run step]. rewrite update_coil by lia.
    rewrite IH by lia. f_equal. f_equal. lia.
Qed.

Lemma set_game_over_same (g : SnakeGame) : set_game_over g (game_over g) = g.
Proof. destruct g. reflexivity. Qed.

Lemma check_collision_points (g g' : SnakeGame) (p : point) :
  points g = points g' -> check_collision g p = check_collision g' p.
Proof. intros H. unfold check_collision. rewrite H. reflexivity. Qed.

Lemma food_hit_fields (g g' : SnakeGame) (cx cy : R) :
  food_position g = food_position g' ->
  food_width g = food_width g' ->
  food_height g = food_height g' ->
  food_hit g cx cy = food_hit g' cx cy.
Proof. intros H1 H2 H3. unfold food_hit. rewrite H1, H2, H3. reflexivity. Qed.

(** A playing update of a reachable state, phase by phase: the body is
    advanced and trimmed, the food is handled on the trimmed state, and the
    flag is the answer of the collision check on the trimmed body. *)
Lemma update_phases (g : SnakeGame) (head : point) (rnd : entropy) :
  reachable g ->
  game_over g = false ->
  exists g2,
    _trim_snake_length (append_head g head) = Some g2
    /\ game_over g2 = false
    /\ allowed_length g2 = allowed_length g
    /\ score g2 = score g
    /\ food_hit g2 (fst head) (snd head) = food_hit g (fst head) (snd head)
    /\ update g head rnd
       = Some (set_game_over
                 (_check_food_collision g2 (fst head) (snd head) rnd)
                 (check_collision g2 head)).
Proof.
  intros Hreach Hgo. pose proof (reachable_Inv g Hreach) as HI.
  destruct (Inv_append_head g head HI) as [Hs Hl].
  destruct (append_head_fields g head) as (Ha & Hsc & _ & Hfp & Hfw & Hfh & Hg).
  destruct (trim_snake_length_spec _ Hs Hl) as (ps & ls & cur & Ht & _).
  exists (set_body (append_head g head) ps ls cur).
  split; [exact Ht|]. fields.
  split; [rewrite Hg; exact Hgo|].
  split; [exact Ha|]. split; [exact Hsc|].
  split; [apply food_hit_fields; fields; assumption|].
  unfold update. rewrite Hgo, Ht.
  set (g2 := set_body (append_head g head) ps ls cur).
  set (g3 := _check_food_collision g2 (fst head) (snd head) rnd).
  destruct (check_food_collision_body g2 (fst head) (snd head) rnd)
    as (Hp & _ & _ & Hgo3 & _).
  fold g3 in Hp, Hgo3.
  rewrite (check_collision_points g3 g2 head Hp).
  destruct (check_collision g2 head); [reflexivity|].
  f_equal. rewrite <- (set_game_over_same g3) at 1.
  rewrite Hgo3. subst g2. fields. rewrite Hg, Hgo. reflexivity.
Qed.

(** ** The claims on the body *)

(** C1: for every finite sequence of head positions fed to [update], with
    resets anywhere in between, every call returns and the tracked
    [current_length] then equals the sum of the elements of [lengths],
    exactly, in real arithmetic. *)
Theorem current_length_is_sum_of_lengths (rnd : entropy) (es : list event) :
  exists g, run (init rnd) es = Some g /\ current_length g = sumR (lengths g).
Proof.
  destruct (Inv_run es (init rnd) (Inv_init rnd)) as (g & Hr & HI).
  exists g. split; [exact Hr | apply (inv_sum g HI)].
Qed.

(** C8, as the code has it: after construction and after every update and
    reset, [lengths] has exactly as many elements as [points]: one point and
    one length are appended together and popped together. *)
Theorem lengths_as_long_as_points (rnd : entropy) (es : list event) :
  exists g, run (init rnd) es = Some g
            /\ length (lengths g) = length (points g).
Proof.
  destruct (Inv_run es (init rnd) (Inv_init rnd)) as (g & Hr & HI).
  exists g. split; [exact Hr | symmetry; apply (inv_len g HI)].
Qed.


(** C5: [check_collision] answers true exactly when the body has more than
    50 points and some point other than the 50 most recently added ones lies
    at a distance strictly below 15 of the head; so it answers false
    whenever the body has 50 points or fewer. *)
Theorem check_collision_spec (g : SnakeGame) (head : point) :
  check_collision g head = true <->
  (50 < length (points g))%nat
  /\ exists i p, (i + 50 < length (points g))%nat
                 /\ nth_error (points g) i = Some p
                 /\ hypot (fst head - fst p) (snd head - snd p) < 15.
Proof.
  unfold check_collision. destruct head as [px py]. cbn [fst snd].
  destruct (50 <? length (points g))%nat eqn:E.
  - apply Nat.ltb_lt in E. rewrite scan_body_true. split.
    + intros (p & Hin & Hd). split; [exact E|].
      apply In_firstn_nth_error in Hin. destruct Hin as (i & Hi & Hn).
      exists i, p. repeat split; auto. lia.
    + intros (_ & i & p & Hi & Hn & Hd). exists p. split; [|exact Hd].
      apply In_firstn_nth_error. exists i. split; [lia | exact Hn].
  - apply Nat.ltb_ge in E. split; [discriminate | intros (H & _); lia].
Qed.

(** C8, refuted as stated: after the first update the body has one point
    and one length, not one length fewer. *)
Lemma lengths_one_fewer_than_points_fails :
  exists g,
    run (init (0, 0)%Z) [Frame (30, 40) (0, 0)%Z] = Some g
    /\ points g = [(30, 40)]
    /\ lengths g = [50]
    /\ Z.of_nat (length (lengths g)) <> (Z.of_nat (length (points g)) - 1)%Z.
Proof.
  assert (Hd : hypot (30 - 0) (40 - 0) = 50) by (apply hypot_square; lra).
  eexists. split; [|split; [|split]].
  - cbn [run step]. erewrite update_playing; [ | reflexivity | ].
    2:{ unfold append_head. fields. rewrite Hd. cbn [app].
        apply trim_stop. lra. }
    cbv zeta. unfold append_head. fields. unfold _check_food_collision.
    rewrite food_hit_false by (fields; left; cbn; lra).
    unfold check_collision. fields. cbn [length Nat.ltb Nat.leb].
    reflexivity.
  - reflexivity.
  - reflexivity.
  - cbn. lia.
Qed.


End AiSnakeFacts.

(** * Facts about the discrete segment-chain model *)
Module ClassicSnakeFacts.

Import ClassicSnake.
Local Open Scope Z_scope.

(** [distance_below] is the comparison the source makes on the Euclidean
    distance. *)
Lemma distance_below_spec (a b : pos) (t : Z) :
  0 <= t ->
  distance_below a b t = true <->
  (sqrt (IZR ((fst a - fst b) * (fst a - fst b)
              + (snd a - snd b) * (snd a - snd b))) < IZR t)%R.
Proof.
  intros Ht. unfold distance_below. cbv zeta.
  set (n := (fst a - fst b) * (fst a - fst b)
            + (snd a - snd b) * (snd a - snd b)).
  assert (Hn : 0 <= n).
  { pose proof (Z.square_nonneg (fst a - fst b)).
    pose proof (Z.square_nonneg (snd a - snd b)). subst n. lia. }
  assert (HnR : (0 <= IZR n)%R) by (apply IZR_le; exact Hn).
  assert (HtR : (0 <= IZR t)%R) by (apply IZR_le; exact Ht).
  rewrite Z.ltb_lt.
  rewrite <- (sqrt_square (IZR t)) at 1 by exact HtR.
  rewrite <- mult_IZR. split.
  - intros H. apply sqrt_lt_1_alt. split; [exact HnR | apply IZR_lt; exact H].
  - intros H. apply lt_IZR. apply sqrt_lt_0_alt. exact H.
Qed.

Lemma check_wall_collision_reset_game (s : ClassicSnakeGame) :
  check_wall_collision (reset_game s) = false.
Proof. reflexivity. Qed.

Lemma check_self_collision_reset_game (s : ClassicSnakeGame) :
  check_self_collision (reset_game s) = false.
Proof. reflexivity. Qed.

(** The effects of the food block. *)
Lemma eat_food_effects (s : ClassicSnakeGame) (rnd : entropy) :
  score (eat_food s rnd) = score s + 10
  /\ segments (eat_food s rnd) = segments s ++ [(0, 0)]
  /\ (-270 <= fst (food (eat_food s rnd)) <= 270)
  /\ (-270 <= snd (food (eat_food s rnd)) <= 270)
  /\ ((0.05 < delay s)%Q -> delay (eat_food s rnd) = (delay s - 0.002)%Q)
  /\ ((delay s <= 0.05)%Q -> delay (eat_food s rnd) = delay s)
  /\ head (eat_food s rnd) = head s.
Proof.
  unfold eat_food. cbn [score segments food delay head add_segment spawn_food
                          set_segments fst snd].
  split; [reflexivity|]. split; [reflexivity|].
  split; [apply randint_bounds; lia|]. split; [apply randint_bounds; lia|].
  split; [|split; [|reflexivity]].
  - intros H. destruct (Qlt_le_dec 0.05 (delay s)) as [_ | H']; [reflexivity|].
    exfalso. apply (Qlt_not_le _ _ H H').
  - intros H. destruct (Qlt_le_dec 0.05 (delay s)) as [H' | _]; [|reflexivity].
    exfalso. apply (Qlt_not_le _ _ H' H).
Qed.

(** C9: a direction command that exactly reverses the stored direction
    leaves the whole state as it is; every other command, whatever the stored
    direction is ("stop" included), sets the direction to the commanded one
    and changes nothing else. *)
Theorem direction_command_spec (c : command) (s : ClassicSnakeGame) :
  (direction (head s) = reverse_of c -> press c s = s)
  /\ (direction (head s) <> reverse_of c ->
      press c s = set_direction s (commanded c)
      /\ direction (head (press c s)) = commanded c)
  /\ (direction (head s) = "stop"%string ->
      direction (head (press c s)) = commanded c).
Proof.
  assert (Hneq : direction (head s) <> reverse_of c ->
                 press c s = set_direction s (commanded c)).
  { intros H. apply String.eqb_neq in H.
    destruct c; cbn [press reverse_of commanded] in *;
      unfold go_up, go_down, go_left, go_right; rewrite H; reflexivity. }
  split; [|split].
  - intros H. apply String.eqb_eq in H.
    destruct c; cbn [press reverse_of] in *;
      unfold go_up, go_down, go_left, go_right; rewrite H; reflexivity.
  - intros H. split; [apply Hneq; exact H|]. rewrite (Hneq H). reflexivity.
  - intros H. rewrite Hneq; [reflexivity|].
    rewrite H. destruct c; discriminate.
Qed.

Lemma direction_command_spec_witness :
  press Left (press Right init) = press Right init
  /\ direction (head (press Up init)) = "up"%string
  /\ direction (head (press Down (press Right init))) = "down"%string.
Proof.
  split; [|split].
  - apply (proj1 (direction_command_spec Left (press Right init))). reflexivity.
  - apply (proj2 (proj2 (direction_command_spec Up init))). reflexivity.
  - apply (proj1 (proj2 (direction_command_spec Down (press Right init)))).
    discriminate.
Defined.

End ClassicSnakeFacts.

(** * The session: ticks, collisions, food and reset in both models *)
Module SessionFacts.

Import Scenarios.

Lemma list_set_length (l : list ClassicSnake.pos) :
  forall i v, length (ClassicSnake.list_set l i v) = length l.
Proof.
  induction l as [|x l IH]; intros [|i] v; simpl; auto.
Qed.

Lemma follow_length (i : nat) :
  forall l, length (ClassicSnake.follow l i) = length l.
Proof.
  induction i as [|i IH]; intros l; simpl; [reflexivity|].
  rewrite IH. apply list_set_length.
Qed.

Lemma move_segments_length (s : ClassicSnake.ClassicSnakeGame) :
  length (ClassicSnake.segments (ClassicSnake.move_segments s))
  = length (ClassicSnake.segments s).
Proof.
  unfold ClassicSnake.move_segments.
  pose proof (follow_length (length (ClassicSnake.segments s) - 1)
                (ClassicSnake.segments s)) as H.
  destruct (ClassicSnake.follow _ _) as [|x l]; simpl in *; exact H.
Qed.

Lemma move_segments_fields (s : ClassicSnake.ClassicSnakeGame) :
  ClassicSnake.score (ClassicSnake.move_segments s) = ClassicSnake.score s
  /\ ClassicSnake.food (ClassicSnake.move_segments s) = ClassicSnake.food s
  /\ ClassicSnake.delay (ClassicSnake.move_segments s) = ClassicSnake.delay s.
Proof.
  unfold ClassicSnake.move_segments.
  destruct (ClassicSnake.follow _ _); simpl; auto.
Qed.

Lemma move_fields (s : ClassicSnake.ClassicSnakeGame) :
  ClassicSnake.score (ClassicSnake.move s) = ClassicSnake.score s
  /\ ClassicSnake.food (ClassicSnake.move s) = ClassicSnake.food s
  /\ ClassicSnake.delay (ClassicSnake.move s) = ClassicSnake.delay s
  /\ ClassicSnake.segments (ClassicSnake.move s) = ClassicSnake.segments s.
Proof.
  unfold ClassicSnake.move. cbv zeta.
  repeat match goal with
         | |- context [if ?b then _ else _] => destruct b
         end; simpl; auto.
Qed.

(** A round that finds the head beyond the wall resets the game and then
    goes on as a round of the fresh game. *)
Lemma tick_after_wall_collision (s : ClassicSnake.ClassicSnakeGame)
      (rnd : entropy) :
  ClassicSnake.is_paused s = false ->
  ClassicSnake.check_wall_collision s = true ->
  ClassicSnake.tick s rnd = ClassicSnake.tick (ClassicSnake.reset_game s) rnd.
Proof.
  intros Hp Hw. unfold ClassicSnake.tick, ClassicSnake.wall_phase.
  rewrite Hw, Hp.
  change (ClassicSnake.is_paused (ClassicSnake.reset_game s))
    with (ClassicSnake.is_paused s).
  rewrite Hp. reflexivity.
Qed.

(** A round whose head runs into a segment ends in the reset game. *)
Lemma tick_self_collision (s : ClassicSnake.ClassicSnakeGame) (rnd : entropy) :
  ClassicSnake.is_paused s = false ->
  ClassicSnake.check_self_collision
    (ClassicSnake.move (ClassicSnake.move_segments
       (ClassicSnake.food_phase (ClassicSnake.wall_phase s) rnd))) = true ->
  ClassicSnake.tick s rnd
  = ClassicSnake.reset_game
      (ClassicSnake.move (ClassicSnake.move_segments
         (ClassicSnake.food_phase (ClassicSnake.wall_phase s) rnd))).
Proof.
  intros Hp Hc. unfold ClassicSnake.tick, ClassicSnake.self_phase.
  rewrite Hp, Hc. reflexivity.
Qed.

(** A round without any collision, in which the head is on the food. *)
Lemma tick_eats (s : ClassicSnake.ClassicSnakeGame) (rnd : entropy) :
  ClassicSnake.is_paused s = false ->
  ClassicSnake.check_wall_collision s = false ->
  ClassicSnake.eats s = true ->
  ClassicSnake.check_self_collision
    (ClassicSnake.move (ClassicSnake.move_segments
       (ClassicSnake.eat_food s rnd))) = false ->
  ClassicSnake.tick s rnd
  = ClassicSnake.move (ClassicSnake.move_segments (ClassicSnake.eat_food s rnd)).
Proof.
  intros Hp Hw He Hc.
  unfold ClassicSnake.tick, ClassicSnake.wall_phase, ClassicSnake.food_phase,
    ClassicSnake.self_phase.
  rewrite Hp, Hw, He, Hc. reflexivity.
Qed.


(** ** Food *)

(** The effects of eating where nothing undoes them: the whole continuous
    update, the food block of the discrete loop, and a discrete round that
    meets no collision. *)
Theorem food_consumption_effects :
  (forall (g : AiSnake.SnakeGame) (head : AiSnake.point) (rnd : entropy),
      AiSnake.reachable g ->
      AiSnake.game_over g = false ->
      AiSnake.food_hit g (fst head) (snd head) = true ->
      exists g',
        AiSnake.update g head rnd = Some g'
        /\ AiSnake.score g' = (AiSnake.score g + 1)%Z
        /\ AiSnake.allowed_length g' = (AiSnake.allowed_length g + 30)%Z
        /\ (100 <= fst (AiSnake.food_position g') <= 700)%Z
        /\ (100 <= snd (AiSnake.food_position g') <= 500)%Z)
  /\ (forall (s : ClassicSnake.ClassicSnakeGame) (rnd : entropy),
         ClassicSnake.eats s = true ->
         let s' := ClassicSnake.food_phase s rnd in
         ClassicSnake.score s' = (ClassicSnake.score s + 10)%Z
         /\ ClassicSnake.segments s' = ClassicSnake.segments s ++ [(0, 0)%Z]
         /\ (-270 <= fst (ClassicSnake.food s') <= 270)%Z
         /\ (-270 <= snd (ClassicSnake.food s') <= 270)%Z
         /\ ((0.05 < ClassicSnake.delay s)%Q ->
             ClassicSnake.delay s' = (ClassicSnake.delay s - 0.002)%Q)
         /\ ((ClassicSnake.delay s <= 0.05)%Q ->
             ClassicSnake.delay s' = ClassicSnake.delay s))
  /\ (forall (s : ClassicSnake.ClassicSnakeGame) (rnd : entropy),
         ClassicSnake.is_paused s = false ->
         ClassicSnake.check_wall_collision s = false ->
         ClassicSnake.eats s = true ->
         ClassicSnake.check_self_collision
           (ClassicSnake.move (ClassicSnake.move_segments
              (ClassicSnake.eat_food s rnd))) = false ->
         let s' := ClassicSnake.tick s rnd in
         ClassicSnake.score s' = (ClassicSnake.score s + 10)%Z
         /\ length (ClassicSnake.segments s')
            = S (length (ClassicSnake.segments s))
         /\ (-270 <= fst (ClassicSnake.food s') <= 270)%Z
         /\ (-270 <= snd (ClassicSnake.food s') <= 270)%Z
         /\ ((0.05 < ClassicSnake.delay s)%Q ->
             ClassicSnake.delay s' = (ClassicSnake.delay s - 0.002)%Q)
         /\ ((ClassicSnake.delay s <= 0.05)%Q ->
             ClassicSnake.delay s' = ClassicSnake.delay s)).
Proof.
  split; [|split].
  - intros g head rnd Hreach Hgo Hhit.
    destruct (AiSnakeFacts.update_phases g head rnd Hreach Hgo)
      as (g2 & _ & _ & Ha & Hsc & Hh & Hu).
    eexists. split; [exact Hu|].
    unfold AiSnake._check_food_collision. rewrite Hh, Hhit.
    cbn [AiSnake.score AiSnake.allowed_length AiSnake.food_position
         AiSnake.set_game_over AiSnake.randomize_food_location
         AiSnake.set_food_position fst snd].
    rewrite Ha, Hsc.
    split; [reflexivity|]. split; [reflexivity|].
    split; apply randint_bounds; lia.
  - intros s rnd He s'. subst s'. unfold ClassicSnake.food_phase. rewrite He.
    destruct (ClassicSnakeFacts.eat_food_effects s rnd)
      as (H1 & H2 & H3 & H4 & H5 & H6 & _).
    repeat split; auto; lia.
  - intros s rnd Hp Hw He Hc s'. subst s'.
    rewrite (tick_eats s rnd Hp Hw He Hc).
    destruct (ClassicSnakeFacts.eat_food_effects s rnd)
      as (H1 & H2 & H3 & H4 & H5 & H6 & _).
    destruct (move_fields (ClassicSnake.move_segments
                             (ClassicSnake.eat_food s rnd)))
      as (M1 & M2 & M3 & M4).
    destruct (move_segments_fields (ClassicSnake.eat_food s rnd))
      as (N1 & N2 & N3).
    rewrite M1, M2, M3, M4, N1, N2, N3, move_segments_length, H2, length_app.
    cbn [length]. repeat split; auto; lia.
Qed.

Lemma food_consumption_effects_witness :
  (exists g',
      AiSnake.update (AiSnake.init (0, 0)%Z) (100, 100)%R (0, 0)%Z = Some g'
      /\ AiSnake.score g' = (AiSnake.score (AiSnake.init (0, 0)%Z) + 1)%Z
      /\ AiSnake.allowed_length g'
         = (AiSnake.allowed_length (AiSnake.init (0, 0)%Z) + 30)%Z
      /\ (100 <= fst (AiSnake.food_position g') <= 700)%Z
      /\ (100 <= snd (AiSnake.food_position g') <= 500)%Z)
  /\ ClassicSnake.score
       (ClassicSnake.food_phase (ClassicSnake.run ClassicSnake.init (climb 5))
          draw_50_60) = 10%Z
  /\ ClassicSnake.score
       (ClassicSnake.tick (ClassicSnake.run ClassicSnake.init (climb 5))
          draw_50_60) = 10%Z.
Proof.
  destruct food_consumption_effects as (Hai & Hblock & Htick).
  split; [|split].
  - apply (Hai (AiSnake.init (0, 0)%Z) (100, 100)%R (0, 0)%Z).
    + exists (0, 0)%Z, []. reflexivity.
    + reflexivity.
    + apply AiSnakeFacts.food_hit_true. cbn. lra.
  - apply (Hblock (ClassicSnake.run ClassicSnake.init (climb 5)) draw_50_60).
    reflexivity.
  - apply (Htick (ClassicSnake.run ClassicSnake.init (climb 5)) draw_50_60);
      reflexivity.
Defined.

(** C7, refuted as stated for the discrete model: after a reset with the
    food lying next to the origin, the stopped head finds the food, the food
    block raises the score to 10 and adds a segment, the segment is moved
    onto the head, and the self-collision check of the same round resets the
    game.  The round that detected the food ends with score 0, as it
    began, and with no segment. *)
Example round_eats_then_resets :
  let s := ClassicSnake.run ClassicSnake.init (climb_with draw_5_5 16) in
  ClassicSnake.head s = ClassicSnake.mkHead 0 0 "stop"
  /\ ClassicSnake.food s = (5, 5)%Z
  /\ ClassicSnake.score s = 0%Z
  /\ ClassicSnake.eats s = true
  /\ ClassicSnake.score (ClassicSnake.food_phase s draw_50_60) = 10%Z
  /\ ClassicSnake.score (ClassicSnake.tick s draw_50_60) = 0%Z
  /\ ClassicSnake.segments (ClassicSnake.tick s draw_50_60) = []
  /\ ClassicSnake.high_score (ClassicSnake.tick s draw_50_60) = 10%Z
  /\ ClassicSnake.food (ClassicSnake.tick s draw_50_60) = (50, 60)%Z.
Proof. vm_compute. repeat split. Qed.

(** ** Order of a tick *)

(** C3, refuted as stated: the finger rests at (72, 96) for 51 frames and
    then moves to (80, 96), onto the food at (100, 100) and 8 away from the
    oldest body point.  That update detects the collision and ends the
    game, yet the food has been eaten in it: the score went from 0 to 1, the
    allowance to 130 and the food to a new place. *)
Lemma food_handled_on_collision_tick :
  exists g g',
    AiSnake.run (AiSnake.init (0, 0)%Z)
      (repeat (AiSnake.Frame (72, 96)%R (0, 0)%Z) 51) = Some g
    /\ AiSnake.game_over g = false
    /\ AiSnake.score g = 0%Z
    /\ AiSnake.food_position g = (100, 100)%Z
    /\ AiSnake.update g (80, 96)%R (600, 400)%Z = Some g'
    /\ AiSnake.check_collision g' (80, 96)%R = true
    /\ AiSnake.game_over g' = true
    /\ AiSnake.score g' = 1%Z
    /\ AiSnake.allowed_length g' = 130%Z
    /\ AiSnake.food_position g' = (700, 500)%Z.
Proof.
  assert (Hd : AiSnake.hypot (80 - 72) (96 - 96) = 8%R)
    by (apply AiSnakeFacts.hypot_square; lra).
  assert (Hc : AiSnake.check_collision
                 (AiSnake.set_body (coil 50) (repeat (72, 96)%R 50 ++ [(80, 96)%R])
                    (repeat 0%R 50 ++ [8%R]) (0 + 8)%R) (80, 96)%R = true).
  { unfold AiSnake.check_collision, coil.
    cbn [AiSnake.points AiSnake.set_body repeat app length Nat.ltb Nat.leb
         Nat.sub firstn AiSnake.scan_body].
    rewrite Hd. rewrite (proj2 (AiSnakeFacts.Rltb_true 8 15)) by lra.
    reflexivity. }
  exists (coil 50). eexists.
  split; [|split; [|split; [|split; [|split]]]].
  - change 51%nat with (S 50). cbn [repeat AiSnake.run AiSnake.step].
    rewrite AiSnakeFacts.update_init_coil.
    apply (AiSnakeFacts.run_coil (0, 0)%Z 50 0). lia.
  - reflexivity.
  - reflexivity.
  - reflexivity.
  - erewrite AiSnakeFacts.update_playing; [ | reflexivity | ].
    2:{ unfold AiSnake.append_head, coil.
        cbn [AiSnake.points AiSnake.lengths AiSnake.current_length
             AiSnake.allowed_length AiSnake.previous_head AiSnake.set_body
             AiSnake.set_previous_head].
        rewrite Hd. apply AiSnakeFacts.trim_stop. lra. }
    cbv zeta. unfold AiSnake.append_head.
    cbn [AiSnake.previous_head coil]. unfold AiSnake._check_food_collision.
    rewrite (proj2 (AiSnakeFacts.food_hit_true _ _ _)) by (cbn; lra).
    match goal with
    | |- context [AiSnake.check_collision ?x _] =>
        replace (AiSnake.check_collision x (80, 96)%R) with true
          by (symmetry; exact Hc)
    end.
    reflexivity.
  - split; [|repeat split].
    rewrite <- Hc. apply AiSnakeFacts.check_collision_points. reflexivity.
Qed.

(** C3, as the code has it.  A playing continuous update first advances and
    trims the body, then handles the food on that state, and last checks the
    self-collision on the advanced body; the answer of the check only sets
    the flag, so the food eaten on a colliding tick stays eaten.  A discrete
    round first checks the wall on the head as the previous round left it
    (resetting and going on if it hit), then handles the food, then moves
    segments and head, and last checks the self-collision. *)
Theorem tick_phase_order :
  (forall (g : AiSnake.SnakeGame) (head : AiSnake.point) (rnd : entropy),
      AiSnake.reachable g ->
      AiSnake.game_over g = false ->
      exists g2,
        AiSnake._trim_snake_length (AiSnake.append_head g head) = Some g2
        /\ AiSnake.update g head rnd
           = Some (AiSnake.set_game_over
                     (AiSnake._check_food_collision g2 (fst head) (snd head) rnd)
                     (AiSnake.check_collision g2 head)))
  /\ (forall (s : ClassicSnake.ClassicSnakeGame) (rnd : entropy),
         ClassicSnake.is_paused s = false ->
         ClassicSnake.tick s rnd
         = (let s1 := if ClassicSnake.check_wall_collision s
                      then ClassicSnake.reset_game s else s in
            let s2 := if ClassicSnake.eats s1
                      then ClassicSnake.eat_food s1 rnd else s1 in
            let s3 := ClassicSnake.move (ClassicSnake.move_segments s2) in
            if ClassicSnake.check_self_collision s3
            then ClassicSnake.reset_game s3 else s3)).
Proof.
  split.
  - intros g head rnd Hreach Hgo.
    destruct (AiSnakeFacts.update_phases g head rnd Hreach Hgo)
      as (g2 & Ht & _ & _ & _ & _ & Hu).
    exists g2. split; assumption.
  - intros s rnd Hp. unfold ClassicSnake.tick. rewrite Hp. reflexivity.
Qed.

Lemma tick_phase_order_witness :
  (exists g2,
      AiSnake._trim_snake_length
        (AiSnake.append_head (AiSnake.init (0, 0)%Z) (30, 40)%R) = Some g2
      /\ AiSnake.update (AiSnake.init (0, 0)%Z) (30, 40)%R (0, 0)%Z
         = Some (AiSnake.set_game_over
                   (AiSnake._check_food_collision g2 (fst (30, 40)%R)
                      (snd (30, 40)%R) (0, 0)%Z)
                   (AiSnake.check_collision g2 (30, 40)%R)))
  /\ ClassicSnake.head_pos
       (ClassicSnake.tick (ClassicSnake.press ClassicSnake.Up ClassicSnake.init)
          (0, 0)%Z) = (0, 20)%Z.
Proof.
  destruct tick_phase_order as (Hai & Hclassic). split.
  - apply (Hai (AiSnake.init (0, 0)%Z) (30, 40)%R (0, 0)%Z).
    + exists (0, 0)%Z, []. reflexivity.
    + reflexivity.
  - rewrite (Hclassic (ClassicSnake.press ClassicSnake.Up ClassicSnake.init)
               (0, 0)%Z); reflexivity.
Defined.

(** ** The game-over flag *)

(** C4, refuted as stated for the discrete model: driven upwards, the snake
    is beyond the wall after 15 rounds with score 10.  The next round finds
    the collision and resets the game itself; nothing asked for a reset, no
    state of being over is entered, and a key press and a further round
    move the head of the new game. *)
Lemma classic_collision_restarts_at_once :
  let s := ClassicSnake.run ClassicSnake.init (climb 15) in
  let s1 := ClassicSnake.tick s (0, 0)%Z in
  ClassicSnake.is_paused s = false
  /\ ClassicSnake.check_wall_collision s = true
  /\ ClassicSnake.score s = 10%Z
  /\ ClassicSnake.score s1 = 0%Z
  /\ ClassicSnake.segments s1 = []
  /\ ClassicSnake.head s1 = ClassicSnake.mkHead 0 0 "stop"
  /\ ClassicSnake.head_pos
       (ClassicSnake.run s1
          [ClassicSnake.Press ClassicSnake.Right; ClassicSnake.Tick (0, 0)%Z])
     = (20, 0)%Z.
Proof. vm_compute. repeat split. Qed.

(** C4, as the code has it.  In the continuous model a reachable update
    returns, and afterwards the flag is set exactly if it was set before or
    the collision check answers true on the new body; an update of a game
    that is over changes nothing; [reset_game] clears the flag, and placing
    food, eating and trimming leave it alone.  The discrete model has no
    such flag: a round that finds a wall or self collision performs the
    reset itself. *)
Theorem game_over_transitions :
  (forall (g : AiSnake.SnakeGame) (head : AiSnake.point) (rnd : entropy),
      AiSnake.reachable g ->
      exists g',
        AiSnake.update g head rnd = Some g'
        /\ AiSnake.game_over g'
           = (AiSnake.game_over g || AiSnake.check_collision g' head)
        /\ (AiSnake.game_over g = true -> g' = g))
  /\ (forall (g : AiSnake.SnakeGame) (rnd : entropy),
         AiSnake.game_over (AiSnake.reset_game g rnd) = false)
  /\ (forall (g : AiSnake.SnakeGame) (cx cy : R) (rnd : entropy),
         AiSnake.game_over (AiSnake.randomize_food_location g rnd)
         = AiSnake.game_over g
         /\ AiSnake.game_over (AiSnake._check_food_collision g cx cy rnd)
            = AiSnake.game_over g
         /\ (forall g2, AiSnake._trim_snake_length g = Some g2 ->
                        AiSnake.game_over g2 = AiSnake.game_over g))
  /\ (forall (s : ClassicSnake.ClassicSnakeGame) (rnd : entropy),
         ClassicSnake.is_paused s = false ->
         ClassicSnake.check_wall_collision s = true ->
         ClassicSnake.tick s rnd
         = ClassicSnake.tick (ClassicSnake.reset_game s) rnd)
  /\ (forall (s : ClassicSnake.ClassicSnakeGame) (rnd : entropy),
         ClassicSnake.is_paused s = false ->
         let s3 := ClassicSnake.move (ClassicSnake.move_segments
                     (ClassicSnake.food_phase (ClassicSnake.wall_phase s) rnd)) in
         ClassicSnake.check_self_collision s3 = true ->
         ClassicSnake.tick s rnd = ClassicSnake.reset_game s3).
Proof.
  split; [|split; [|split; [|split]]].
  - intros g head rnd Hreach. destruct (AiSnake.game_over g) eqn:Hgo.
    + exists g. unfold AiSnake.update. rewrite Hgo. auto.
    + destruct (AiSnakeFacts.update_phases g head rnd Hreach Hgo)
        as (g2 & _ & _ & _ & _ & _ & Hu).
      eexists. split; [exact Hu|]. split; [|discriminate].
      cbn [AiSnake.game_over AiSnake.set_game_over orb].
      apply AiSnakeFacts.check_collision_points.
      cbn [AiSnake.points AiSnake.set_game_over].
      symmetry. apply AiSnakeFacts.check_food_collision_body.
  - reflexivity.
  - intros g cx cy rnd. split; [reflexivity|].
    split; [apply AiSnakeFacts.check_food_collision_body|].
    intros g2. unfold AiSnake._trim_snake_length.
    destruct (AiSnake.trim _ _ _ _) as [[[ps ls] cur]|]; [|discriminate].
    intros H. injection H as <-. reflexivity.
  - exact tick_after_wall_collision.
  - intros s rnd Hp s3 Hc. apply tick_self_collision; assumption.
Qed.

Lemma game_over_transitions_witness :
  exists g',
    AiSnake.update (AiSnake.init (0, 0)%Z) (30, 40)%R (0, 0)%Z = Some g'
    /\ AiSnake.game_over g'
       = (AiSnake.game_over (AiSnake.init (0, 0)%Z)
          || AiSnake.check_collision g' (30, 40)%R)
    /\ (AiSnake.game_over (AiSnake.init (0, 0)%Z) = true ->
        g' = AiSnake.init (0, 0)%Z).
Proof.
  apply (proj1 game_over_transitions (AiSnake.init (0, 0)%Z) (30, 40)%R (0, 0)%Z).
  exists (0, 0)%Z, []. reflexivity.
Defined.

(** ** Reset *)

(** C6, refuted as stated for the discrete model: the food eaten on the way
    up was placed at (50, 60); the reset made by the round that finds the
    wall collision leaves it there, neither back at its first place
    (0, 100) nor drawn anew. *)
Lemma classic_reset_keeps_food :
  let s := ClassicSnake.run ClassicSnake.init (climb 15) in
  ClassicSnake.check_wall_collision s = true
  /\ ClassicSnake.food s = (50, 60)%Z
  /\ ClassicSnake.food (ClassicSnake.reset_game s) = (50, 60)%Z
  /\ ClassicSnake.food (ClassicSnake.tick s (0, 0)%Z) = (50, 60)%Z
  /\ ClassicSnake.score (ClassicSnake.tick s (0, 0)%Z) = 0%Z
  /\ ClassicSnake.food (ClassicSnake.reset_game s)
     <> ClassicSnake.food ClassicSnake.init.
Proof. vm_compute. repeat split. discriminate. Qed.

(** C6, as the code has it.  A continuous reset sets the score to 0, clears
    the flag, makes the high score the larger of the old high score and the
    old score, empties [points] and [lengths], sets [current_length] to 0
    and [allowed_length] to 100, and draws a new food place within bounds.
    A discrete reset sets the score to 0, makes the high score the larger of
    the two, clears the segments, puts the head at the origin and stopped,
    and sets the delay to 0.1; it leaves the food where it is. *)
Theorem reset_game_effects :
  (forall (g : AiSnake.SnakeGame) (rnd : entropy),
      let g' := AiSnake.reset_game g rnd in
      AiSnake.score g' = 0%Z
      /\ AiSnake.game_over g' = false
      /\ AiSnake.high_score g'
         = Z.max (AiSnake.high_score g) (AiSnake.score g)
      /\ AiSnake.points g' = []
      /\ AiSnake.lengths g' = []
      /\ AiSnake.current_length g' = 0%R
      /\ AiSnake.allowed_length g' = 100%Z
      /\ AiSnake.previous_head g' = (0, 0)%R
      /\ AiSnake.food_position g'
         = (randint 100 700 (fst rnd), randint 100 500 (snd rnd))
      /\ (100 <= fst (AiSnake.food_position g') <= 700)%Z
      /\ (100 <= snd (AiSnake.food_position g') <= 500)%Z)
  /\ (forall (s : ClassicSnake.ClassicSnakeGame),
         let s' := ClassicSnake.reset_game s in
         ClassicSnake.score s' = 0%Z
         /\ ClassicSnake.high_score s'
            = Z.max (ClassicSnake.high_score s) (ClassicSnake.score s)
         /\ ClassicSnake.segments s' = []
         /\ ClassicSnake.head s' = ClassicSnake.mkHead 0 0 "stop"
         /\ ClassicSnake.delay s' = 0.1%Q
         /\ ClassicSnake.food s' = ClassicSnake.food s).
Proof.
  split.
  - intros g rnd g'. subst g'.
    cbn [AiSnake.reset_game AiSnake.randomize_food_location
         AiSnake.set_food_position AiSnake.score AiSnake.game_over
         AiSnake.high_score AiSnake.points AiSnake.lengths
         AiSnake.current_length AiSnake.allowed_length AiSnake.previous_head
         AiSnake.food_position fst snd].
    repeat (split; [reflexivity|]).
    split.
    { destruct (Z.ltb_spec (AiSnake.high_score g) (AiSnake.score g)); lia. }
    repeat (split; [reflexivity|]).
    split; apply randint_bounds; lia.
  - intros s s'. subst s'.
    cbn [ClassicSnake.reset_game ClassicSnake.score ClassicSnake.high_score
         ClassicSnake.segments ClassicSnake.head ClassicSnake.delay
         ClassicSnake.food].
    split; [reflexivity|]. split; [|repeat split].
    destruct (Z.ltb_spec (ClassicSnake.high_score s) (ClassicSnake.score s)); lia.
Qed.

End SessionFacts.

(** * More on the continuous trail model *)
Module AiSnakeExtras.

Import AiSnake Shape AiSnakeFacts.
Local Open Scope R_scope.

Lemma travel_nonneg (p q : point) : 0 <= travel p q.
Proof. unfold travel, hypot. apply sqrt_pos. Qed.

Lemma append_head_body (g : SnakeGame) (h : point) :
  points (append_head g h) = points g ++ [h]
  /\ lengths (append_head g h) = lengths g ++ [travel (previous_head g) h]
  /\ current_length (append_head g h)
     = current_length g + travel (previous_head g) h
  /\ previous_head (append_head g h) = h.
Proof.
  unfold append_head, travel. destruct (previous_head g) as [px py].
  destruct h as [cx cy]. fields. cbn [fst snd]. tauto.
Qed.

(** In exact arithmetic the loop pops the shortest prefix after which the
    rest fits. *)
Lemma trim_least_prefix (allowed : Z) (ls : list R) :
  forall (ps : list point) (cur : R),
    length ps = length ls ->
    cur = sumR ls ->
    exists k cur',
      (k <= length ls)%nat
      /\ trim cur allowed ls ps = Some (skipn k ps, skipn k ls, cur')
      /\ cur' = sumR (skipn k ls)
      /\ (cur' <= IZR allowed \/ k = length ls)
      /\ forall j, (j < k)%nat -> IZR allowed < sumR (skipn j ls).
Proof.
  induction ls as [|l0 ls IH]; intros ps cur Hlen Hsum.
  - destruct ps; [|discriminate Hlen].
    exists O, cur. cbn [trim skipn length].
    split; [lia|]. split; [destruct (Rltb _ _); reflexivity|].
    split; [exact Hsum|]. split; [right; reflexivity | intros j Hj; lia].
  - destruct (Rltb (IZR allowed) cur) eqn:E.
    + destruct ps as [|p ps]; [discriminate Hlen|].
      destruct (IH ps (cur - l0)) as (k & cur' & Hk & Ht & Hc & Hstop & Hmin).
      * simpl in Hlen. lia.
      * rewrite Hsum, sumR_cons. lra.
      * exists (S k), cur'. cbn [skipn length].
        split; [lia|]. split; [cbn [trim]; rewrite E; exact Ht|].
        split; [exact Hc|].
        split; [destruct Hstop; [left; assumption | right; lia]|].
        intros [|j] Hj.
        -- cbn [skipn]. rewrite <- Hsum. apply Rltb_true. exact E.
        -- cbn [skipn]. apply Hmin. lia.
    + exists O, cur. cbn [skipn].
      split; [lia|]. split; [cbn [trim]; rewrite E; reflexivity|].
      split; [exact Hsum|].
      split; [left; apply Rltb_false; exact E | intros j Hj; lia].
Qed.

(** The shape of the state a playing update leaves. *)
Lemma update_shape (g : SnakeGame) (h : point) (rnd : entropy) :
  Inv g ->
  game_over g = false ->
  exists k g',
    update g h rnd = Some g'
    /\ (k <= S (length (points g)))%nat
    /\ points g' = skipn k (points g ++ [h])
    /\ lengths g' = skipn k (lengths g ++ [travel (previous_head g) h])
    /\ previous_head g' = h
    /\ (forall j, (j < k)%nat ->
                  IZR (allowed_length g)
                  < sumR (skipn j (lengths g ++ [travel (previous_head g) h])))
    /\ sumR (skipn k (lengths g ++ [travel (previous_head g) h]))
       <= IZR (allowed_length g)
    /\ game_over g' = check_collision g' h
    /\ high_score g' = high_score g
    /\ (score g <= score g')%Z
    /\ food_width g' = food_width g
    /\ food_height g' = food_height g
    /\ (food_position g' = food_position g
        \/ (100 <= fst (food_position g') <= 700
            /\ 100 <= snd (food_position g') <= 500)%Z).
Proof.
  intros HI Hgo.
  destruct (append_head_body g h) as (Hp & Hl & Hc & Hprev).
  destruct (append_head_fields g h) as (Ha & Hsc & Hhs & Hfp & Hfw & Hfh & Hg).
  destruct (trim_least_prefix (allowed_length g)
              (lengths g ++ [travel (previous_head g) h])
              (points g ++ [h])
              (current_length g + travel (previous_head g) h))
    as (k & cur' & Hk & Ht & Hcur & Hstop & Hmin).
  { rewrite !length_app, (inv_len g HI). reflexivity. }
  { rewrite sumR_app, sumR_single, (inv_sum g HI). reflexivity. }
  exists k. eexists.
  split.
  { apply update_playing; [exact Hgo|]. rewrite Hp, Hl, Hc. exact Ht. }
  cbv zeta.
  set (g2 := set_body (append_head g h) _ _ cur').
  set (g3 := _check_food_collision g2 (fst h) (snd h) rnd).
  destruct (check_food_collision_body g2 (fst h) (snd h) rnd)
    as (Bp & Bl & _ & Bg & Bh).
  fold g3 in Bp, Bl, Bg, Bh.
  assert (Hfood : (score g <= score g3)%Z
                  /\ food_width g3 = food_width g
                  /\ food_height g3 = food_height g
                  /\ previous_head g3 = h
                  /\ (food_position g3 = food_position g
                      \/ (100 <= fst (food_position g3) <= 700
                          /\ 100 <= snd (food_position g3) <= 500)%Z)).
  { subst g3. unfold _check_food_collision.
    destruct (food_hit g2 (fst h) (snd h)); subst g2; fields;
      rewrite ?Hsc, ?Hfw, ?Hfh, ?Hfp, ?Hprev.
    - repeat split; try lia; try reflexivity.
      right. cbn [fst snd]. split; apply randint_bounds; lia.
    - repeat split; try lia; try reflexivity. left. reflexivity. }
  destruct Hfood as (F1 & F2 & F3 & F4 & F5).
  assert (Hlen : (k <= S (length (points g)))%nat).
  { rewrite length_app in Hk. cbn [length] in Hk.
    rewrite <- (inv_len g HI) in Hk. lia. }
  assert (Hfit : sumR (skipn k (lengths g ++ [travel (previous_head g) h]))
                 <= IZR (allowed_length g)).
  { destruct Hstop as [Hle | Hall]; [rewrite <- Hcur; exact Hle|].
    rewrite Hall, skipn_all. unfold sumR. cbn [fold_right].
    apply IZR_le. rewrite (inv_allowed g HI). pose proof (inv_score g HI). lia. }
  assert (Hgo3 : game_over g3 = false).
  { rewrite Bg. subst g2. fields. rewrite Hg. exact Hgo. }
  destruct (check_collision g3 h) eqn:Ecol.
  - fields. rewrite Bp, Bl, Bh, F2, F3, F4. subst g2. fields. rewrite Hhs.
    repeat split; try assumption.
    symmetry. rewrite <- Ecol. apply check_collision_points. reflexivity.
  - rewrite Bp, Bl, Bh, F2, F3, F4, Hgo3, Ecol. subst g2. fields. rewrite Hhs.
    repeat split; assumption.
Qed.

(** A property that construction and reset establish and a returning update
    of a state within the invariant keeps holds after every run. *)
Lemma run_invariant (P : SnakeGame -> Prop) :
  (forall rnd, P (init rnd)) ->
  (forall g rnd, Inv g -> P g -> P (reset_game g rnd)) ->
  (forall g h rnd g', Inv g -> P g -> update g h rnd = Some g' -> P g') ->
  forall rnd es, exists g, run (init rnd) es = Some g /\ Inv g /\ P g.
Proof.
  intros Hinit Hreset Hupd rnd es.
  assert (H : forall es g, Inv g -> P g ->
                           exists g', run g es = Some g' /\ Inv g' /\ P g').
  { clear es. induction es as [|e es IH]; intros g HI HP.
    - exists g. cbn [run]. auto.
    - cbn [run]. destruct (Inv_step g e HI) as (g1 & Hs & HI1). rewrite Hs.
      apply IH; [exact HI1|].
      destruct e as [h r | r]; cbn [step] in Hs.
      + exact (Hupd g h r g1 HI HP Hs).
      + injection Hs as <-. apply Hreset; assumption. }
  apply H; [apply Inv_init | apply Hinit].
Qed.

(** ** Trimming drops whole segments from the tail *)



(** ** The lengths are the distances between consecutive points *)

Lemma last_cons_default (p d : point) (l : list point) :
  last (p :: l) d = last l p.
Proof.
  revert p d. induction l as [|x l IH]; intros p d; [reflexivity|].
  change (last (p :: x :: l) d) with (last (x :: l) d).
  rewrite (IH x d), (IH x p). reflexivity.
Qed.

Lemma last_default (l : list point) (d d' : point) :
  l <> [] -> last l d = last l d'.
Proof.
  destruct l as [|x l]; [congruence|]. intros _.
  rewrite !last_cons_default. reflexivity.
Qed.

Lemma chained_app (h : point) (ps : list point) :
  forall p0 ls,
    chained p0 ps ls ->
    chained p0 (ps ++ [h]) (ls ++ [travel (last ps p0) h]).
Proof.
  induction ps as [|p ps IH]; intros p0 [|l ls] H; cbn [chained] in H;
    try contradiction.
  - cbn. auto.
  - destruct H as [Hl Hc]. rewrite last_cons_default.
    cbn [app chained]. split; [exact Hl | apply IH; exact Hc].
Qed.

Lemma chained_skipn (k : nat) :
  forall p0 ps ls,
    chained p0 ps ls ->
    exists p0', chained p0' (skipn k ps) (skipn k ls)
                /\ last (skipn k ps) p0' = last ps p0.
Proof.
  induction k as [|k IH]; intros p0 ps ls H.
  - exists p0. auto.
  - destruct ps as [|p ps], ls as [|l ls]; cbn [chained] in H;
      try contradiction.
    + exists p0. cbn. auto.
    + destruct H as [_ Hc]. destruct (IH p ps ls Hc) as (p0' & Hc' & Hlast).
      exists p0'. cbn [skipn]. rewrite last_cons_default. auto.
Qed.

Lemma chained_nth (ps : list point) :
  forall p0 ls i p q,
    chained p0 ps ls ->
    nth_error ps i = Some p ->
    nth_error ps (S i) = Some q ->
    nth_error ls (S i) = Some (travel p q).
Proof.
  induction ps as [|x ps IH]; intros p0 ls i p q H Hp Hq.
  - destruct i; discriminate.
  - destruct ls as [|l ls]; cbn [chained] in H; [contradiction|].
    destruct H as [_ Hc]. destruct i as [|i].
    + injection Hp as <-. destruct ps as [|y ps]; [discriminate|].
      injection Hq as <-. destruct ls as [|l' ls]; cbn [chained] in Hc;
        [contradiction|].
      destruct Hc as [-> _]. reflexivity.
    + cbn [nth_error] in *. exact (IH x ls i p q Hc Hp Hq).
Qed.

Lemma chained_nonneg (ps : list point) :
  forall p0 ls, chained p0 ps ls -> Forall (fun l => 0 <= l) ls.
Proof.
  induction ps as [|x ps IH]; intros p0 [|l ls] H; cbn [chained] in H;
    try contradiction; constructor.
  - destruct H as [-> _]. apply travel_nonneg.
  - destruct H as [_ Hc]. exact (IH x ls Hc).
Qed.

Lemma run_Chain (rnd : entropy) (es : list event) :
  exists g, run (init rnd) es = Some g /\ Inv g /\ Chain g.
Proof.
  apply run_invariant.
  - intros r. exists (0, 0). fields. cbn. auto.
  - intros g r _ _. exists (0, 0). fields. cbn. auto.
  - intros g h r g' HI (p0 & Hc & Hlast) Hu.
    destruct (game_over g) eqn:Hgo.
    + unfold update in Hu. rewrite Hgo in Hu. injection Hu as <-.
      exists p0. auto.
    + destruct (update_shape g h r HI Hgo)
        as (k & g1 & Hu1 & _ & Hp & Hl & Hprev & _).
      rewrite Hu1 in Hu. injection Hu as <-.
      pose proof (chained_app h _ _ _ Hc) as Hc1. rewrite Hlast in Hc1.
      destruct (chained_skipn k _ _ _ Hc1) as (p0' & Hc2 & Hlast2).
      exists p0'. rewrite Hp, Hl, Hprev. split; [exact Hc2|].
      rewrite Hlast2. apply last_last.
Qed.

(** After every run of updates and resets, each length but the first is the
    distance between its point and the point before it, and the previous
    head is the newest point of a non-empty body. *)
Theorem lengths_are_consecutive_distances (rnd : entropy) (es : list event) :
  exists g,
    run (init rnd) es = Some g
    /\ (forall i p q,
           nth_error (points g) i = Some p ->
           nth_error (points g) (S i) = Some q ->
           nth_error (lengths g) (S i) = Some (travel p q))
    /\ (forall d, points g <> [] -> last (points g) d = previous_head g).
Proof.
  destruct (run_Chain rnd es) as (g & Hr & _ & p0 & Hc & Hlast).
  exists g. split; [exact Hr|]. split.
  - intros i p q. apply (chained_nth _ _ _ _ _ _ Hc).
  - intros d Hne. rewrite <- Hlast. apply last_default. exact Hne.
Qed.

(** After every run no element of [lengths] is negative: each is a distance
    [update] computed with [math.hypot]. *)
Theorem lengths_never_negative (rnd : entropy) (es : list event) :
  exists g,
    run (init rnd) es = Some g
    /\ Forall (fun l => 0 <= l) (lengths g).
Proof.
  destruct (run_Chain rnd es) as (g & Hr & _ & p0 & Hc & _).
  exists g. split; [exact Hr|]. exact (chained_nonneg _ _ _ Hc).
Qed.

(** ** The food *)

Lemma run_food (rnd : entropy) (es : list event) :
  exists g, run (init rnd) es = Some g /\ Inv g /\ FoodOK g.
Proof.
  apply run_invariant.
  - intros r. unfold FoodOK. fields. cbn [fst snd].
    pose proof (randint_bounds 100 700 (fst r)).
    pose proof (randint_bounds 100 500 (snd r)).
    repeat split; try reflexivity; lia.
  - intros g r _ (F1 & F2 & _). unfold FoodOK. fields. cbn [fst snd].
    pose proof (randint_bounds 100 700 (fst r)).
    pose proof (randint_bounds 100 500 (snd r)).
    repeat split; try assumption; lia.
  - intros g h r g' HI HF Hu.
    destruct (game_over g) eqn:Hgo.
    + unfold update in Hu. rewrite Hgo in Hu. injection Hu as <-. exact HF.
    + destruct (update_shape g h r HI Hgo)
        as (k & g1 & Hu1 & _ & _ & _ & _ & _ & _ & _ & _ & _ & Hw & Hh & Hf).
      rewrite Hu1 in Hu. injection Hu as <-.
      destruct HF as (F1 & F2 & F3 & F4). unfold FoodOK.
      rewrite Hw, Hh. destruct Hf as [-> | [G1 G2]]; auto.
Qed.

(** After every run the food lies in [100,700] x [100,500], and the head is
    on the food exactly when it is less than 25 away from it along both
    axes. *)
Theorem food_in_bounds_with_square_box (rnd : entropy) (es : list event) :
  exists g,
    run (init rnd) es = Some g
    /\ (100 <= fst (food_position g) <= 700)%Z
    /\ (100 <= snd (food_position g) <= 500)%Z
    /\ forall cx cy,
         food_hit g cx cy = true <->
         Rabs (cx - IZR (fst (food_position g))) < 25
         /\ Rabs (cy - IZR (snd (food_position g))) < 25.
Proof.
  destruct (run_food rnd es) as (g & Hr & _ & Hw & Hh & Hx & Hy).
  exists g. split; [exact Hr|]. split; [exact Hx|]. split; [exact Hy|].
  intros cx cy. rewrite food_hit_true, Hw, Hh.
  change (50 / 2)%Z with 25%Z. rewrite !minus_IZR, !plus_IZR.
  split.
  - intros [H1 H2]. split; apply Rabs_def1; lra.
  - intros [H1 H2]. apply Rabs_def2 in H1. apply Rabs_def2 in H2. lra.
Qed.

(** ** Score and high score *)

Lemma high_score_along_run (es : list event) :
  forall g, Inv g ->
            exists g', run g es = Some g' /\ (high_score g <= high_score g')%Z.
Proof.
  induction es as [|e es IH]; intros g HI.
  - exists g. cbn [run]. split; [reflexivity | lia].
  - cbn [run]. destruct (Inv_step g e HI) as (g1 & Hs & HI1). rewrite Hs.
    destruct (IH g1 HI1) as (g' & Hr & Hle). exists g'. split; [exact Hr|].
    assert (high_score g <= high_score g1)%Z; [|lia].
    destruct e as [h r | r]; cbn [step] in Hs.
    + destruct (game_over g) eqn:Hgo.
      * unfold update in Hs. rewrite Hgo in Hs. injection Hs as <-. lia.
      * destruct (update_shape g h r HI Hgo)
          as (k & g2 & Hu & _ & _ & _ & _ & _ & _ & _ & Hhs & _).
        rewrite Hu in Hs. injection Hs as <-. lia.
    + injection Hs as <-. fields.
      destruct (Z.ltb_spec (high_score g) (score g)); lia.
Qed.

(** From any reachable state, an update returns without touching the high
    score and without lowering the score, so a record is banked only by
    [reset_game]; and along any further run the high score never
    decreases. *)
Theorem high_score_banked_only_by_reset (rnd : entropy) (es : list event) :
  exists g,
    run (init rnd) es = Some g
    /\ (forall head r,
           exists g', update g head r = Some g'
                      /\ high_score g' = high_score g
                      /\ (score g <= score g')%Z)
    /\ (forall r,
           high_score (reset_game g r) = Z.max (high_score g) (score g))
    /\ (forall es',
           exists g', run g es' = Some g'
                      /\ (high_score g <= high_score g')%Z).
Proof.
  destruct (Inv_run es (init rnd) (Inv_init rnd)) as (g & Hr & HI).
  exists g. split; [exact Hr|]. split; [|split].
  - intros head r. destruct (game_over g) eqn:Hgo.
    + exists g. unfold update. rewrite Hgo. repeat split; lia.
    + destruct (update_shape g head r HI Hgo)
        as (k & g' & Hu & _ & _ & _ & _ & _ & _ & _ & Hhs & Hsc & _).
      exists g'. auto.
  - intros r. fields.
    destruct (Z.ltb_spec (high_score g) (score g)); lia.
  - intros es'. apply high_score_along_run. exact HI.
Qed.

(** ** No early game over *)

Lemma frames_keep_playing (fs : list (point * entropy)) :
  forall g,
    Inv g ->
    game_over g = false ->
    (length (points g) + length fs <= 50)%nat ->
    exists g',
      run g (frames fs) = Some g'
      /\ game_over g' = false
      /\ (length (points g') <= length (points g) + length fs)%nat.
Proof.
  induction fs as [|[h r] fs IH]; intros g HI Hgo Hlen.
  - exists g. cbn [frames map run]. split; [reflexivity|]. split; [exact Hgo | lia].
  - cbn [length] in Hlen.
    destruct (update_shape g h r HI Hgo)
      as (k & g1 & Hu & _ & Hp & _ & _ & _ & _ & Hgo1 & _).
    assert (Hl1 : (length (points g1) <= S (length (points g)))%nat).
    { rewrite Hp, length_skipn, length_app. cbn [length]. lia. }
    assert (Hgo1' : game_over g1 = false).
    { rewrite Hgo1. unfold check_collision. destruct h as [px py].
      replace (50 <? length (points g1))%nat with false; [reflexivity|].
      symmetry. apply Nat.ltb_ge. lia. }
    assert (HI1 : Inv g1).
    { destruct (Inv_update g h r HI) as (g1' & Hu' & HI1).
      rewrite Hu in Hu'. injection Hu' as <-. exact HI1. }
    destruct (IH g1 HI1 Hgo1') as (g' & Hr & Hgo' & Hl'); [lia|].
    exists g'. cbn [frames map run step fst snd]. rewrite Hu.
    split; [exact Hr|]. split; [exact Hgo'|]. cbn [length]. lia.
Qed.

(** The game cannot end within the first 50 frames after construction or
    after a reset: every such run returns with the flag still clear. *)
Theorem no_game_over_in_first_50_frames (rnd : entropy)
        (fs : list (point * entropy)) :
  (length fs <= 50)%nat ->
  (exists g, run (init rnd) (frames fs) = Some g /\ game_over g = false)
  /\ (forall g0,
         exists g, run (reset_game g0 rnd) (frames fs) = Some g
                   /\ game_over g = false).
Proof.
  intros Hlen. split.
  - destruct (frames_keep_playing fs (init rnd) (Inv_init rnd))
      as (g & Hr & Hgo & _); [reflexivity | cbn; lia |].
    exists g. auto.
  - intros g0.
    destruct (frames_keep_playing fs (reset_game g0 rnd) (Inv_reset_game g0 rnd))
      as (g & Hr & Hgo & _); [reflexivity | cbn; lia |].
    exists g. auto.
Qed.

Lemma no_game_over_in_first_50_frames_witness :
  (length [((300, 400), (0, 0)%Z); ((310, 400), (0, 0)%Z)] <= 50)%nat
  /\ (exists g,
         run (init (0, 0)%Z)
           (frames [((300, 400), (0, 0)%Z); ((310, 400), (0, 0)%Z)]) = Some g
         /\ game_over g = false)
  /\ (forall g0,
         exists g,
           run (reset_game g0 (0, 0)%Z)
             (frames [((300, 400), (0, 0)%Z); ((310, 400), (0, 0)%Z)]) = Some g
           /\ game_over g = false).
Proof.
  assert (H : (length [((300, 400), (0, 0)%Z); ((310, 400), (0, 0)%Z)] <= 50)%nat)
    by (cbn; lia).
  split; [exact H|].
  apply (no_game_over_in_first_50_frames (0, 0)%Z
           [((300, 400), (0, 0)%Z); ((310, 400), (0, 0)%Z)] H).
Defined.

End AiSnakeExtras.

(** * More on the discrete segment-chain model *)
Module ClassicSnakeExtras.

Import ClassicSnake Shape.
Local Open Scope Z_scope.

(** ** Follow the leader *)

Lemma follow_cons (x : pos) (i : nat) :
  forall l, follow (x :: l) (S i) = x :: list_set (follow l i) 0 x.
Proof.
  induction i as [|j IH]; intros l.
  - destruct l; reflexivity.
  - change (follow (x :: l) (S (S j)))
      with (follow (list_set (x :: l) (S (S j)) (nth (S j) (x :: l) (0, 0)))
              (S j)).
    cbn [list_set nth]. rewrite IH. reflexivity.
Qed.

Lemma follow_all (t : list pos) :
  forall x, follow (x :: t) (length t) = x :: removelast (x :: t).
Proof.
  induction t as [|y t IH]; intros x.
  - reflexivity.
  - cbn [length]. rewrite follow_cons, IH. reflexivity.
Qed.

Lemma move_segments_shift (s : ClassicSnakeGame) :
  segments (move_segments s)
  = match segments s with
    | [] => []
    | _ :: _ => head_pos s :: removelast (segments s)
    end.
Proof.
  unfold move_segments. destruct (segments s) as [|x t] eqn:E.
  - reflexivity.
  - replace (length (x :: t) - 1)%nat with (length t) by (cbn [length]; lia).
    rewrite follow_all. reflexivity.
Qed.

Lemma move_segments_rest (s : ClassicSnakeGame) :
  head (move_segments s) = head s
  /\ food (move_segments s) = food s
  /\ score (move_segments s) = score s
  /\ high_score (move_segments s) = high_score s
  /\ delay (move_segments s) = delay s
  /\ is_paused (move_segments s) = is_paused s.
Proof. unfold move_segments. destruct (follow _ _); cbn; tauto. Qed.

(** [move_segments] puts the first segment where the head is and every
    other segment where its predecessor was; the last position is given up.
    Nothing else changes. *)
Theorem move_segments_follows_leader (s : ClassicSnakeGame) :
  segments (move_segments s)
  = match segments s with
    | [] => []
    | _ :: _ => head_pos s :: removelast (segments s)
    end
  /\ length (segments (move_segments s)) = length (segments s)
  /\ (forall i, (S i < length (segments s))%nat ->
                nth_error (segments (move_segments s)) (S i)
                = nth_error (segments s) i)
  /\ head (move_segments s) = head s
  /\ food (move_segments s) = food s
  /\ score (move_segments s) = score s
  /\ high_score (move_segments s) = high_score s
  /\ delay (move_segments s) = delay s
  /\ is_paused (move_segments s) = is_paused s.
Proof.
  assert (Hseg : segments (move_segments s)
                 = match segments s with
                   | [] => []
                   | _ :: _ => head_pos s :: removelast (segments s)
                   end).
  { apply move_segments_shift. }
  assert (Hrest : head (move_segments s) = head s
                  /\ food (move_segments s) = food s
                  /\ score (move_segments s) = score s
                  /\ high_score (move_segments s) = high_score s
                  /\ delay (move_segments s) = delay s
                  /\ is_paused (move_segments s) = is_paused s).
  { apply move_segments_rest. }
  split; [exact Hseg|]. rewrite Hseg.
  destruct (segments s) as [|x t] eqn:E.
  - split; [reflexivity|]. split; [|exact Hrest]. intros i Hi. cbn in Hi. lia.
  - split; [|split; [|exact Hrest]].
    + destruct (@exists_last _ (x :: t)) as (l' & a & Hl); [discriminate|].
      rewrite Hl, removelast_last, length_app. cbn [length]. lia.
    + intros i Hi. cbn [nth_error].
      destruct (@exists_last _ (x :: t)) as (l' & a & Hl); [discriminate|].
      rewrite Hl in *. rewrite removelast_last.
      rewrite length_app in Hi. cbn [length] in Hi.
      rewrite nth_error_app1 by lia. reflexivity.
Qed.

(** ** What the phases of a round keep *)

Lemma on_grid_origin : on_grid (0, 0).
Proof. split; exists 0; reflexivity. Qed.

Lemma Forall_removelast {A : Type} (P : A -> Prop) (l : list A) :
  Forall P l -> Forall P (removelast l).
Proof.
  induction 1 as [|x l Hx Hl IH]; [constructor|].
  destruct l as [|y l]; [constructor|].
  cbn [removelast] in *. constructor; assumption.
Qed.

Lemma Core_init : Core init.
Proof.
  split; cbn [init score high_score segments head_pos head xcor ycor food
              delay length fst snd].
  - reflexivity.
  - lia.
  - apply on_grid_origin.
  - constructor.
  - lia.
  - reflexivity.
Qed.

Lemma Core_reset_game (s : ClassicSnakeGame) : Core s -> Core (reset_game s).
Proof.
  intros [C1 C2 _ _ Hf _]. split; cbn [reset_game score high_score segments
                                      head_pos head xcor ycor food delay length].
  - reflexivity.
  - destruct (Z.ltb_spec (high_score s) (score s)); lia.
  - apply on_grid_origin.
  - constructor.
  - exact Hf.
  - reflexivity.
Qed.

Lemma Core_fields (s s' : ClassicSnakeGame) :
  score s' = score s ->
  high_score s' = high_score s ->
  head_pos s' = head_pos s ->
  segments s' = segments s ->
  food s' = food s ->
  delay s' = delay s ->
  Core s -> Core s'.
Proof.
  intros H1 H2 H3 H4 H5 H6 [C1 C2 C3 C4 C5 C6].
  split; rewrite ?H1, ?H2, ?H3, ?H4, ?H5, ?H6; assumption.
Qed.

Lemma press_fields (c : command) (s : ClassicSnakeGame) :
  score (press c s) = score s
  /\ high_score (press c s) = high_score s
  /\ head_pos (press c s) = head_pos s
  /\ segments (press c s) = segments s
  /\ food (press c s) = food s
  /\ delay (press c s) = delay s
  /\ is_paused (press c s) = is_paused s.
Proof.
  destruct c; cbn [press]; unfold go_up, go_down, go_left, go_right;
    match goal with |- context [if ?b then _ else _] => destruct b end;
    cbn; tauto.
Qed.

Lemma Core_press (c : command) (s : ClassicSnakeGame) :
  Core s -> Core (press c s).
Proof.
  destruct (press_fields c s) as (H1 & H2 & H3 & H4 & H5 & H6 & _).
  apply Core_fields; assumption.
Qed.

Lemma Core_eat_food (s : ClassicSnakeGame) (rnd : entropy) :
  Core s -> Core (eat_food s rnd).
Proof.
  intros [C1 C2 C3 C4 C5 C6].
  split; unfold eat_food;
    cbn [score high_score segments head_pos head food delay add_segment
         spawn_food set_segments fst snd].
  - rewrite length_app. cbn [length]. lia.
  - destruct (Z.ltb_spec (high_score s) (score s + 10)); lia.
  - exact C3.
  - apply Forall_app. split; [exact C4|]. constructor; [|constructor].
    apply on_grid_origin.
  - split; apply randint_bounds; lia.
  - rewrite length_app. cbn [length].
    set (n := Z.of_nat (length (segments s))) in *.
    assert (Hn : 0 <= n) by (subst n; lia).
    replace (Z.of_nat (length (segments s) + 1)) with (n + 1) by (subst n; lia).
    destruct (Z_lt_le_dec n 25) as [Hlt | Hge].
    + rewrite Z.min_r in C6 by lia. rewrite Z.min_r by lia.
      rewrite inject_Z_plus. change (inject_Z 1) with 1%Q.
      assert (Hq : (inject_Z n <= 24)%Q).
      { change 24%Q with (inject_Z 24). rewrite <- Zle_Qle. lia. }
      set (q := inject_Z n) in *.
      destruct (Qlt_le_dec 0.05 (delay s)) as [H | H]; Lqa.lra.
    + rewrite Z.min_l in C6 by lia. rewrite Z.min_l by lia.
      change (inject_Z 25) with 25%Q in *.
      destruct (Qlt_le_dec 0.05 (delay s)) as [H | H]; Lqa.lra.
Qed.

Lemma Core_move_segments (s : ClassicSnakeGame) :
  Core s -> Core (move_segments s).
Proof.
  intros [C1 C2 C3 C4 C5 C6].
  destruct (move_segments_rest s) as (Hh & Hf & Hs & Hhs & Hd & _).
  assert (Hlen : length (segments (move_segments s)) = length (segments s)).
  { rewrite move_segments_shift. destruct (segments s) as [|x t]; [reflexivity|].
    destruct (@exists_last _ (x :: t)) as (l' & a & Hl); [discriminate|].
    rewrite Hl, removelast_last, length_app. cbn [length]. lia. }
  split; unfold head_pos; rewrite ?Hh, ?Hf, ?Hs, ?Hhs, ?Hd, ?Hlen;
    try assumption.
  rewrite move_segments_shift. destruct (segments s) as [|x t]; [constructor|].
  constructor; [exact C3 | apply Forall_removelast; exact C4].
Qed.

Lemma move_rest (s : ClassicSnakeGame) :
  segments (move s) = segments s
  /\ food (move s) = food s
  /\ score (move s) = score s
  /\ high_score (move s) = high_score s
  /\ delay (move s) = delay s
  /\ is_paused (move s) = is_paused s
  /\ direction (head (move s)) = direction (head s).
Proof.
  unfold move. cbv zeta.
  repeat match goal with
         | |- context [if ?b then _ else _] => destruct b
         end; cbn; tauto.
Qed.

(** The head after [move]: one step of 20 along one axis, or none. *)
Lemma move_head (s : ClassicSnakeGame) :
  (xcor (head (move s)) = xcor (head s)
   /\ (ycor (head (move s)) = ycor (head s) + 20
       \/ ycor (head (move s)) = ycor (head s) - 20
       \/ ycor (head (move s)) = ycor (head s)))
  \/ (ycor (head (move s)) = ycor (head s)
      /\ (xcor (head (move s)) = xcor (head s) + 20
          \/ xcor (head (move s)) = xcor (head s) - 20)).
Proof.
  unfold move. cbv zeta.
  repeat match goal with
         | |- context [if ?b then _ else _] => destruct b
         end; cbn; tauto.
Qed.

Lemma Core_move (s : ClassicSnakeGame) : Core s -> Core (move s).
Proof.
  intros [C1 C2 C3 C4 C5 C6].
  destruct (move_rest s) as (Hseg & Hf & Hs & Hhs & Hd & _).
  split; rewrite ?Hseg, ?Hf, ?Hs, ?Hhs, ?Hd; try assumption.
  destruct C3 as [[kx Hx] [ky Hy]]. cbn [head_pos fst snd] in Hx, Hy.
  unfold on_grid, head_pos. cbn [fst snd].
  destruct (move_head s) as [[Ex [Ey | [Ey | Ey]]] | [Ey [Ex | Ex]]];
    rewrite Ex, Ey, ?Hx, ?Hy; split;
    first [ exists kx; lia | exists ky; lia | exists (kx + 1); lia
          | exists (kx - 1); lia | exists (ky + 1); lia | exists (ky - 1); lia ].
Qed.

Lemma Core_before_self_check (s : ClassicSnakeGame) (rnd : entropy) :
  Core s -> Core (before_self_check s rnd).
Proof.
  intros HC. unfold before_self_check. apply Core_move, Core_move_segments.
  assert (HC1 : Core (wall_phase s)).
  { unfold wall_phase. destruct (check_wall_collision s);
      [apply Core_reset_game|]; exact HC. }
  unfold food_phase. destruct (eats (wall_phase s));
    [apply Core_eat_food|]; exact HC1.
Qed.

Lemma Core_tick (s : ClassicSnakeGame) (rnd : entropy) :
  Core s -> Core (tick s rnd).
Proof.
  intros HC. unfold tick. destruct (is_paused s); [exact HC|].
  pose proof (Core_before_self_check s rnd HC) as H3.
  unfold before_self_check in H3. unfold self_phase.
  destruct (check_self_collision _); [apply Core_reset_game|]; exact H3.
Qed.

(** ** What holds between rounds *)

(** On the grid, being less than 20 apart is being at the same place. *)
Lemma distance_below_on_grid (a b : pos) :
  on_grid a -> on_grid b -> (distance_below a b 20 = true <-> a = b).
Proof.
  intros [[ka Ha] [kc Hc]] [[kb Hb] [kd Hd]].
  destruct a as [ax ay], b as [bx by_]. cbn [fst snd] in *. subst.
  unfold distance_below. cbn [fst snd]. rewrite Z.ltb_lt. split.
  - intros H.
    replace (ka * 20 - kb * 20) with (20 * (ka - kb)) in H by lia.
    replace (kc * 20 - kd * 20) with (20 * (kc - kd)) in H by lia.
    pose proof (Z.square_nonneg (ka - kb)) as H1.
    pose proof (Z.square_nonneg (kc - kd)) as H2.
    assert (E1 : (ka - kb) * (ka - kb) = 0) by lia.
    assert (E2 : (kc - kd) * (kc - kd) = 0) by lia.
    apply Z.mul_eq_0 in E1. apply Z.mul_eq_0 in E2.
    f_equal; lia.
  - intros E. injection E as E1 E2.
    assert (ka = kb) by lia. assert (kc = kd) by lia. subst. lia.
Qed.

Lemma check_self_collision_on_grid (s : ClassicSnakeGame) :
  Core s ->
  (check_self_collision s = true <-> In (head_pos s) (segments s)).
Proof.
  intros HC. unfold check_self_collision. rewrite existsb_exists.
  pose proof (core_head s HC) as Hh. pose proof (core_segments s HC) as Hs.
  rewrite Forall_forall in Hs. split.
  - intros (x & Hin & Hd).
    apply (distance_below_on_grid x (head_pos s) (Hs x Hin) Hh) in Hd.
    subst x. exact Hin.
  - intros Hin. exists (head_pos s). split; [exact Hin|].
    apply (distance_below_on_grid _ _ Hh Hh). reflexivity.
Qed.

Lemma check_self_collision_positions (s s' : ClassicSnakeGame) :
  head_pos s' = head_pos s -> segments s' = segments s ->
  check_self_collision s' = check_self_collision s.
Proof. intros H1 H2. unfold check_self_collision. rewrite H1, H2. reflexivity. Qed.

Lemma Settled_init : Settled init.
Proof. split; [apply Core_init | cbn; lia | cbn; lia | reflexivity]. Qed.

Lemma Settled_reset_game (s : ClassicSnakeGame) :
  Core s -> Settled (reset_game s).
Proof.
  intros HC. split; [apply Core_reset_game; exact HC | cbn; lia | cbn; lia
                     | reflexivity].
Qed.

Lemma Settled_press (c : command) (s : ClassicSnakeGame) :
  Settled s -> Settled (press c s).
Proof.
  intros [HC Hx Hy Hcl].
  destruct (press_fields c s) as (_ & _ & Hp & Hseg & _).
  split; [apply Core_press; exact HC | | |].
  - injection Hp as -> _. exact Hx.
  - injection Hp as _ ->. exact Hy.
  - rewrite (check_self_collision_positions s (press c s) Hp Hseg). exact Hcl.
Qed.

Lemma Settled_toggle_pause (s : ClassicSnakeGame) :
  Settled s -> Settled (toggle_pause s).
Proof.
  intros [[C1 C2 C3 C4 C5 C6] Hx Hy Hcl]. split; [split|..]; assumption.
Qed.

Lemma wall_phase_head (s : ClassicSnakeGame) :
  Z.abs (xcor (head (wall_phase s))) <= 290
  /\ Z.abs (ycor (head (wall_phase s))) <= 290.
Proof.
  unfold wall_phase. destruct (check_wall_collision s) eqn:E; [cbn; lia|].
  unfold check_wall_collision in E. apply orb_false_iff in E.
  destruct E as [E1 E2]. apply Z.ltb_ge in E1, E2. lia.
Qed.

Lemma food_phase_head (s : ClassicSnakeGame) (rnd : entropy) :
  head (food_phase s rnd) = head s.
Proof. unfold food_phase. destruct (eats s); reflexivity. Qed.

Lemma Settled_tick (s : ClassicSnakeGame) (rnd : entropy) :
  Settled s -> Settled (tick s rnd).
Proof.
  intros HS. pose proof (settled_core s HS) as HC.
  unfold tick. destruct (is_paused s); [exact HS|].
  pose proof (Core_before_self_check s rnd HC) as H3.
  unfold before_self_check in H3. unfold self_phase.
  set (s3 := move (move_segments (food_phase (wall_phase s) rnd))) in *.
  destruct (check_self_collision s3) eqn:E;
    [apply Settled_reset_game; exact H3|].
  split; [exact H3 | | | exact E].
  - destruct (wall_phase_head s) as [Hx Hy].
    destruct (move_segments_rest (food_phase (wall_phase s) rnd)) as (Hh & _).
    rewrite <- (food_phase_head (wall_phase s) rnd), <- Hh in Hx, Hy.
    assert (HCm : Core (move_segments (food_phase (wall_phase s) rnd))).
    { apply Core_move_segments. unfold food_phase, wall_phase.
      destruct (check_wall_collision s);
        [destruct (eats _); [apply Core_eat_food|]; apply Core_reset_game
        | destruct (eats _); [apply Core_eat_food|]]; exact HC. }
    destruct (core_head _ HCm) as [[kx Ex] _]. cbn [head_pos fst] in Ex.
    subst s3.
    destruct (move_head (move_segments (food_phase (wall_phase s) rnd)))
      as [[-> _] | [_ [-> | ->]]]; lia.
  - destruct (wall_phase_head s) as [Hx Hy].
    destruct (move_segments_rest (food_phase (wall_phase s) rnd)) as (Hh & _).
    rewrite <- (food_phase_head (wall_phase s) rnd), <- Hh in Hx, Hy.
    assert (HCm : Core (move_segments (food_phase (wall_phase s) rnd))).
    { apply Core_move_segments. unfold food_phase, wall_phase.
      destruct (check_wall_collision s);
        [destruct (eats _); [apply Core_eat_food|]; apply Core_reset_game
        | destruct (eats _); [apply Core_eat_food|]]; exact HC. }
    destruct (core_head _ HCm) as [_ [ky Ey]]. cbn [head_pos snd] in Ey.
    subst s3.
    destruct (move_head (move_segments (food_phase (wall_phase s) rnd)))
      as [[_ [-> | [-> | ->]]] | [-> _]]; lia.
Qed.

Lemma Settled_step (s : ClassicSnakeGame) (e : event) :
  Settled s -> Settled (step s e).
Proof.
  intros HS. destruct e as [c | | rnd]; cbn [step].
  - apply Settled_press. exact HS.
  - apply Settled_toggle_pause. exact HS.
  - apply Settled_tick. exact HS.
Qed.

Lemma Settled_run (es : list event) :
  forall s, Settled s -> Settled (run s es).
Proof.
  unfold run. induction es as [|e es IH]; intros s HS; cbn [fold_left].
  - exact HS.
  - apply IH. apply Settled_step. exact HS.
Qed.

Lemma Settled_reachable (es : list event) : Settled (run init es).
Proof. apply Settled_run, Settled_init. Qed.

(** Whatever the state, no event lowers the high score. *)
Lemma high_score_reset_game (s : ClassicSnakeGame) :
  high_score s <= high_score (reset_game s).
Proof.
  cbn [reset_game high_score].
  destruct (Z.ltb_spec (high_score s) (score s)); lia.
Qed.

Lemma high_score_step (s : ClassicSnakeGame) (e : event) :
  high_score s <= high_score (step s e).
Proof.
  destruct e as [c | | rnd]; cbn [step].
  - destruct (press_fields c s) as (_ & -> & _). lia.
  - cbn. lia.
  - unfold tick. destruct (is_paused s); [lia|].
    assert (H1 : high_score s <= high_score (wall_phase s)).
    { unfold wall_phase. destruct (check_wall_collision s);
        [apply high_score_reset_game | lia]. }
    assert (H2 : high_score (wall_phase s)
                 <= high_score (food_phase (wall_phase s) rnd)).
    { unfold food_phase. destruct (eats (wall_phase s)); [|lia].
      unfold eat_food. cbn [high_score score add_segment spawn_food
                             set_segments].
      destruct (Z.ltb_spec (high_score (wall_phase s))
                  (score (wall_phase s) + 10)); lia. }
    destruct (move_segments_rest (food_phase (wall_phase s) rnd))
      as (_ & _ & _ & M & _).
    destruct (move_rest (move_segments (food_phase (wall_phase s) rnd)))
      as (_ & _ & _ & M' & _).
    unfold self_phase. destruct (check_self_collision _).
    + pose proof (high_score_reset_game
                    (move (move_segments (food_phase (wall_phase s) rnd)))).
      lia.
    + lia.
Qed.

Lemma high_score_run (es : list event) :
  forall s, high_score s <= high_score (run s es).
Proof.
  unfold run. induction es as [|e es IH]; intros s; cbn [fold_left]; [lia|].
  pose proof (high_score_step s e). pose proof (IH (step s e)). lia.
Qed.

(** ** The invariants of the discrete game *)

(** After every sequence of key presses and rounds the score is ten times
    the number of segments. *)
Theorem score_counts_segments (es : list event) :
  score (run init es) = 10 * Z.of_nat (length (segments (run init es))).
Proof. apply core_score, settled_core, Settled_reachable. Qed.

(** After every sequence of events the high score is at least the score,
    and no further events ever lower it. *)
Theorem classic_high_score_is_record (es es' : list event) :
  score (run init es) <= high_score (run init es)
  /\ high_score (run init es) <= high_score (run init (es ++ es')).
Proof.
  split; [apply core_high, settled_core, Settled_reachable|].
  unfold run at 2. rewrite fold_left_app. apply high_score_run.
Qed.

(** After every sequence of events the head and all segments sit on the
    grid of step 20, and the head is at most 300 from the centre along each
    axis: it gets no farther than the first cell beyond the wall. *)
Theorem head_on_grid_within_reach (es : list event) :
  on_grid (head_pos (run init es))
  /\ Forall on_grid (segments (run init es))
  /\ Z.abs (xcor (head (run init es))) <= 300
  /\ Z.abs (ycor (head (run init es))) <= 300.
Proof.
  destruct (Settled_reachable es) as [HC Hx Hy _].
  split; [apply (core_head _ HC)|]. split; [apply (core_segments _ HC)|].
  split; assumption.
Qed.

(** Between rounds the wall check answers true exactly when the head stands
    300 from the centre along some axis, on the first cell beyond the wall. *)
Theorem wall_collision_on_first_cell_beyond (es : list event) :
  check_wall_collision (run init es) = true <->
  Z.abs (xcor (head (run init es))) = 300
  \/ Z.abs (ycor (head (run init es))) = 300.
Proof.
  destruct (Settled_reachable es) as [HC Hx Hy _].
  destruct (core_head _ HC) as [[kx Ex] [ky Ey]].
  cbn [head_pos fst snd] in Ex, Ey.
  unfold check_wall_collision. rewrite orb_true_iff, !Z.ltb_lt. lia.
Qed.

(** Between rounds the head is never on a segment. *)
Theorem head_off_segments_between_rounds (es : list event) :
  check_self_collision (run init es) = false
  /\ ~ In (head_pos (run init es)) (segments (run init es)).
Proof.
  destruct (Settled_reachable es) as [HC _ _ Hcl].
  split; [exact Hcl|]. intros Hin.
  apply (check_self_collision_on_grid _ HC) in Hin. congruence.
Qed.

(** The self-collision check of a round answers true exactly when the moved
    head is at the very position of a segment. *)
Theorem self_collision_is_overlap (es : list event) (rnd : entropy) :
  let s3 := before_self_check (run init es) rnd in
  check_self_collision s3 = true <-> In (head_pos s3) (segments s3).
Proof.
  intros s3. apply check_self_collision_on_grid.
  apply Core_before_self_check, settled_core, Settled_reachable.
Qed.

(** After every sequence of events the food lies in [-270,270] x
    [-270,270], so strictly inside the wall. *)
Theorem classic_food_inside_wall (es : list event) :
  (-270 <= fst (food (run init es)) <= 270)
  /\ (-270 <= snd (food (run init es)) <= 270)
  /\ (290 <? Z.abs (fst (food (run init es))))
     || (290 <? Z.abs (snd (food (run init es)))) = false.
Proof.
  destruct (core_food _ (settled_core _ (Settled_reachable es))) as [Hx Hy].
  split; [exact Hx|]. split; [exact Hy|].
  apply orb_false_iff. split; apply Z.ltb_ge; lia.
Qed.

(** With the delay as an exact rational: after every sequence of events the
    delay is 0.1 less 0.002 for each ten points of score, up to 25 times, so
    the decrements stop with the twenty-fifth food of a game. *)
Theorem delay_determined_by_score (es : list event) :
  (delay (run init es)
   == 0.1 - 0.002 * inject_Z (Z.min 25 (score (run init es) / 10)))%Q
  /\ (delay (run init es) <= 0.1)%Q.
Proof.
  pose proof (settled_core _ (Settled_reachable es)) as HC.
  pose proof (core_delay _ HC) as Hd. pose proof (core_score _ HC) as Hs.
  set (s := run init es) in *.
  set (n := Z.of_nat (length (segments s))) in *.
  assert (Hn : 0 <= n) by (subst n; lia).
  assert (Hdiv : score s / 10 = n).
  { rewrite Hs, Z.mul_comm. apply Z.div_mul. lia. }
  rewrite Hdiv.
  assert (Hlo : (0 <= inject_Z (Z.min 25 n))%Q).
  { change 0%Q with (inject_Z 0). rewrite <- Zle_Qle. lia. }
  set (q := inject_Z (Z.min 25 n)) in *.
  split; [exact Hd | Lqa.lra].
Qed.

(** ** Keys, pause and single rounds *)

(** The guard compares with the stored direction only: a command across the
    heading followed by the command against it, both before the next round,
    turns the snake round on the spot. *)
Theorem two_commands_reverse_heading (c p : command) (s : ClassicSnakeGame) :
  perpendicular p c = true ->
  direction (head s) = reverse_of c ->
  direction (head (press c (press p s))) = commanded c
  /\ head_pos (press c (press p s)) = head_pos s
  /\ segments (press c (press p s)) = segments s.
Proof.
  intros Hperp Hdir.
  destruct (press_fields c (press p s)) as (_ & _ & Hp & Hs & _).
  destruct (press_fields p s) as (_ & _ & Hp' & Hs' & _).
  split; [|split; congruence].
  destruct c, p; cbn [perpendicular] in Hperp; try discriminate Hperp;
    cbn [press reverse_of commanded] in *;
    unfold go_up, go_down, go_left, go_right; rewrite Hdir; reflexivity.
Qed.

Lemma two_commands_reverse_heading_witness :
  perpendicular Up Left = true
  /\ direction (head (press Right init)) = reverse_of Left
  /\ direction (head (press Left (press Up (press Right init))))
     = commanded Left
  /\ head_pos (press Left (press Up (press Right init)))
     = head_pos (press Right init)
  /\ segments (press Left (press Up (press Right init)))
     = segments (press Right init).
Proof.
  split; [reflexivity|]. split; [reflexivity|].
  apply (two_commands_reverse_heading Left Up (press Right init)); reflexivity.
Defined.

Lemma toggle_pause_twice (s : ClassicSnakeGame) :
  toggle_pause (toggle_pause s) = s.
Proof. destruct s. unfold toggle_pause. cbn. rewrite negb_involutive. reflexivity. Qed.

Lemma paused_rounds (rs : list entropy) :
  forall s es, is_paused s = true -> run s (rounds rs ++ es) = run s es.
Proof.
  unfold run. induction rs as [|r rs IH]; intros s es Hp; [reflexivity|].
  cbn [rounds map app fold_left step]. unfold tick at 1. rewrite Hp.
  apply (IH s es Hp).
Qed.

(** Pausing, any number of rounds and pausing again gives the state back
    unchanged; a direction key does the same to a paused game as to a
    running one. *)
Theorem pause_freezes_rounds_not_keys (s : ClassicSnakeGame)
        (rs : list entropy) :
  (is_paused s = false -> run s (Pause :: rounds rs ++ [Pause]) = s)
  /\ (forall c, press c (toggle_pause s) = toggle_pause (press c s)).
Proof.
  split.
  - intros Hp. change (run s (Pause :: rounds rs ++ [Pause]))
      with (run (toggle_pause s) (rounds rs ++ [Pause])).
    rewrite paused_rounds by (cbn; rewrite Hp; reflexivity).
    cbn. apply toggle_pause_twice.
  - intros c. destruct c; cbn [press];
      unfold go_up, go_down, go_left, go_right, toggle_pause;
      cbn [head direction];
      match goal with |- context [if ?b then _ else _] => destruct b end;
      reflexivity.
Qed.

Lemma pause_freezes_rounds_not_keys_witness :
  run (press Up init) (Pause :: rounds [(0, 0); (1, 1)] ++ [Pause])
  = press Up init.
Proof.
  apply (proj1 (pause_freezes_rounds_not_keys (press Up init) [(0, 0); (1, 1)])).
  reflexivity.
Defined.

(** A round with no collision moves the body up to where the head was: if
    it ate, the old segments all stay and one is added at the head's old
    place; if not, each segment takes the place of the one before it. *)
Theorem round_moves_body (s : ClassicSnakeGame) (rnd : entropy) :
  is_paused s = false ->
  check_wall_collision s = false ->
  check_self_collision (before_self_check s rnd) = false ->
  segments (tick s rnd)
  = (if eats s then head_pos s :: segments s
     else match segments s with
          | [] => []
          | _ :: _ => head_pos s :: removelast (segments s)
          end).
Proof.
  intros Hp Hw Hc. unfold before_self_check in Hc.
  unfold tick, self_phase. rewrite Hp, Hc.
  destruct (move_rest (move_segments (food_phase (wall_phase s) rnd)))
    as (-> & _).
  rewrite move_segments_shift. unfold wall_phase. rewrite Hw.
  unfold food_phase. destruct (eats s).
  - unfold eat_food. cbn [segments head_pos head add_segment spawn_food
                           set_segments].
    destruct (segments s ++ [(0, 0)]) as [|x l] eqn:E.
    + apply app_eq_nil in E. destruct E; discriminate.
    + rewrite <- E, removelast_last. reflexivity.
  - reflexivity.
Qed.

Lemma round_moves_body_witness :
  segments (tick (run init (Scenarios.climb 5)) Scenarios.draw_50_60)
  = [(0, 100)].
Proof.
  apply (round_moves_body (run init (Scenarios.climb 5)) Scenarios.draw_50_60);
    reflexivity.
Defined.

Lemma move_stopped (s : ClassicSnakeGame) :
  direction (head s) = "stop"%string -> move s = s.
Proof. intros H. unfold move. cbv zeta. rewrite H. reflexivity. Qed.

(** A stopped snake that finds the food under its head is reset by the same
    round: the new segment is moved onto the head, which does not move, and
    the self-collision check fires.  The ten points only reach the high
    score. *)
Theorem eating_while_stopped_resets (s : ClassicSnakeGame) (rnd : entropy) :
  is_paused s = false ->
  check_wall_collision s = false ->
  direction (head s) = "stop"%string ->
  eats s = true ->
  tick s rnd = reset_game (eat_food s rnd)
  /\ score (tick s rnd) = 0
  /\ segments (tick s rnd) = []
  /\ high_score (tick s rnd) = Z.max (high_score s) (score s + 10).
Proof.
  intros Hp Hw Hd He.
  assert (Ht : tick s rnd = reset_game (eat_food s rnd)).
  { unfold tick, wall_phase, food_phase. rewrite Hp, Hw, He.
    destruct (move_segments_rest (eat_food s rnd))
      as (Hh & Hf & Hs & Hhs & Hdl & Hpa).
    rewrite move_stopped by (rewrite Hh; exact Hd).
    assert (Hc : check_self_collision (move_segments (eat_food s rnd)) = true).
    { unfold check_self_collision. rewrite move_segments_shift.
      unfold head_pos at 1. rewrite Hh. fold (head_pos (eat_food s rnd)).
      destruct (segments (eat_food s rnd)) as [|x l] eqn:E.
      - unfold eat_food in E. cbn [segments add_segment spawn_food
                                    set_segments] in E.
        apply app_eq_nil in E. destruct E; discriminate.
      - cbn [existsb]. apply orb_true_iff. left.
        unfold distance_below. apply Z.ltb_lt. cbv zeta. nia. }
    unfold self_phase. rewrite Hc.
    unfold reset_game. rewrite Hhs, Hs, Hpa, Hf. reflexivity. }
  split; [exact Ht|]. rewrite Ht.
  split; [reflexivity|]. split; [reflexivity|].
  unfold eat_food. cbn [reset_game high_score score add_segment spawn_food
                         set_segments].
  destruct (Z.ltb_spec (high_score s) (score s + 10));
    match goal with
    | |- context [(?a <? ?b)] => destruct (Z.ltb_spec a b)
    end; lia.
Qed.

Lemma eating_while_stopped_resets_witness :
  score (tick (run init (Scenarios.climb_with Scenarios.draw_5_5 16))
           Scenarios.draw_50_60) = 0.
Proof.
  apply (eating_while_stopped_resets
           (run init (Scenarios.climb_with Scenarios.draw_5_5 16))
           Scenarios.draw_50_60); reflexivity.
Defined.

End ClassicSnakeExtras.

(** * Food on a tick, in both models *)
Module RoundFacts.

Import ClassicSnake Shape ClassicSnakeExtras.
Local Open Scope Z_scope.

(** C7, as the code has it.  When the head is on the food on a playing
    continuous update, the update returns with the score one higher,
    [allowed_length] 30 higher and the food at a place of
    [100,700] x [100,500].  When an unpaused discrete round finds the head on
    the food, its food block adds 10 to the score, appends one segment,
    places the food in [-270,270] x [-270,270] and takes 0.002 off the delay
    exactly when the delay is above 0.05; the new food place and a high
    score of at least the raised score last to the end of the round.  The
    raised score and the added segment last too unless the self-collision
    check of the same round answers true: then the round ends reset, with
    score 0, no segment and the delay back at 0.1. *)
Theorem food_detected_effects :
  (forall (g : AiSnake.SnakeGame) (head : AiSnake.point) (rnd : entropy),
      AiSnake.reachable g ->
      AiSnake.game_over g = false ->
      AiSnake.food_hit g (fst head) (snd head) = true ->
      exists g',
        AiSnake.update g head rnd = Some g'
        /\ AiSnake.score g' = AiSnake.score g + 1
        /\ AiSnake.allowed_length g' = AiSnake.allowed_length g + 30
        /\ (100 <= fst (AiSnake.food_position g') <= 700)
        /\ (100 <= snd (AiSnake.food_position g') <= 500))
  /\ (forall (s : ClassicSnakeGame) (rnd : entropy),
         is_paused s = false ->
         eats (wall_phase s) = true ->
         let s1 := wall_phase s in
         let s2 := eat_food s1 rnd in
         let s3 := move (move_segments s2) in
         let s' := tick s rnd in
         (score s2 = score s1 + 10
          /\ segments s2 = segments s1 ++ [(0, 0)]
          /\ (-270 <= fst (food s2) <= 270)
          /\ (-270 <= snd (food s2) <= 270)
          /\ ((0.05 < delay s1)%Q -> delay s2 = (delay s1 - 0.002)%Q)
          /\ ((delay s1 <= 0.05)%Q -> delay s2 = delay s1))
         /\ food s' = food s2
         /\ score s1 + 10 <= high_score s'
         /\ (check_self_collision s3 = false ->
             score s' = score s1 + 10
             /\ length (segments s') = S (length (segments s1))
             /\ delay s' = delay s2)
         /\ (check_self_collision s3 = true ->
             score s' = 0 /\ segments s' = [] /\ delay s' = 0.1%Q)).
Proof.
  split; [exact (proj1 SessionFacts.food_consumption_effects)|].
  intros s rnd Hp He s1 s2 s3 s'.
  destruct (ClassicSnakeFacts.eat_food_effects s1 rnd)
    as (E1 & E2 & E3 & E4 & E5 & E6 & _).
  fold s2 in E1, E2, E3, E4, E5, E6.
  split; [repeat split; try assumption; lia|].
  destruct (move_segments_rest s2) as (_ & Mf & Ms & Mh & Md & _).
  destruct (move_rest (move_segments s2)) as (Vseg & Vf & Vs & Vh & Vd & _).
  fold s3 in Vseg, Vf, Vs, Vh, Vd.
  assert (Hhigh : score s1 + 10 <= high_score s2).
  { subst s2. unfold eat_food.
    cbn [high_score score add_segment spawn_food set_segments].
    destruct (Z.ltb_spec (high_score s1) (score s1 + 10)); lia. }
  assert (Ht : s' = self_phase s3).
  { subst s' s3 s2 s1. unfold tick, food_phase. rewrite Hp, He. reflexivity. }
  rewrite Ht. unfold self_phase.
  destruct (check_self_collision s3) eqn:Ec.
  - split; [cbn [reset_game food]; congruence|].
    split.
    { pose proof (high_score_reset_game s3). lia. }
    split; [discriminate|]. intros _. cbn [reset_game score segments delay].
    repeat split.
  - split; [congruence|]. split; [lia|].
    split; [|discriminate]. intros _.
    split; [lia|]. split; [|congruence].
    rewrite Vseg.
    assert (Hlen : length (segments (move_segments s2)) = length (segments s2)).
    { rewrite move_segments_shift. destruct (segments s2) as [|x t]; [reflexivity|].
      destruct (@exists_last _ (x :: t)) as (l' & a & Hl); [discriminate|].
      rewrite Hl, removelast_last, length_app. cbn [length]. lia. }
    rewrite Hlen, E2, length_app. cbn [length]. lia.
Qed.

Lemma food_detected_effects_witness :
  (exists g',
      AiSnake.update (AiSnake.init (0, 0)) (100, 100)%R (0, 0) = Some g'
      /\ AiSnake.score g' = AiSnake.score (AiSnake.init (0, 0)) + 1
      /\ AiSnake.allowed_length g'
         = AiSnake.allowed_length (AiSnake.init (0, 0)) + 30
      /\ (100 <= fst (AiSnake.food_position g') <= 700)
      /\ (100 <= snd (AiSnake.food_position g') <= 500))
  /\ score (tick (run init (Scenarios.climb 5)) Scenarios.draw_50_60) = 10
  /\ score (tick (run init (Scenarios.climb_with Scenarios.draw_5_5 16))
              Scenarios.draw_50_60) = 0.
Proof.
  destruct food_detected_effects as (Hai & Hround).
  split; [|split].
  - apply (Hai (AiSnake.init (0, 0)) (100, 100)%R (0, 0)).
    + exists (0, 0), []. reflexivity.
    + reflexivity.
    + apply AiSnakeFacts.food_hit_true. cbn. lra.
  - apply (Hround (run init (Scenarios.climb 5)) Scenarios.draw_50_60);
      reflexivity.
  - apply (Hround (run init (Scenarios.climb_with Scenarios.draw_5_5 16))
             Scenarios.draw_50_60); reflexivity.
Defined.

End RoundFacts.
